(** * The devotional feed of the Rise Up Challenge site

    A shallow embedding of the data-ingestion code of the site: the
    video-link helpers of [utils.ts] (as listed in INSTRUCTIONS.md), the
    [useDevotionals] hook of [App.tsx] with its row normalisation and
    newest-first sort, and the filter of [DevotionalsPage].

    Modelling conventions.
    - A JavaScript string is the sequence of its UTF-16 code units; the
      model covers the texts whose code units are below 256, as values of
      [string].  [String.length] is then the [length] property.
    - A value that may be [undefined] (a field of a parsed row, or of an
      object copied from one) is an [option string], [None] standing for
      [undefined]; [null] results are [None] as well.
    - A [throw] is the [Throw] result of the [completion] type; the
      [useState] cells of the hook are the fields of [HookState], and the
      setters are state transformers. *)

From Stdlib Require Import ZArith Ascii String DecimalString DecimalNat Sorted
  Permutation Lia Bool.
From stdpp Require Import base option gmap strings list.

(** ** Texts *)

Module Text.

Fixpoint forallb (p : ascii → bool) (s : string) : bool :=
  match s with
  | EmptyString => true
  | String c s' => p c && forallb p s'
  end.

Fixpoint drop (n : nat) (s : string) : string :=
  match n, s with
  | O, _ => s
  | S n', String _ s' => drop n' s'
  | S _, EmptyString => EmptyString
  end.

(** The longest prefix of [s] whose characters all satisfy [p], and what
    follows it. *)
Fixpoint take_while (p : ascii → bool) (s : string) : string :=
  match s with
  | EmptyString => EmptyString
  | String c s' => if p c then String c (take_while p s') else EmptyString
  end.

Fixpoint drop_while (p : ascii → bool) (s : string) : string :=
  match s with
  | EmptyString => EmptyString
  | String c s' => if p c then drop_while p s' else s
  end.

Fixpoint mem (c : ascii) (s : string) : bool :=
  match s with
  | EmptyString => false
  | String d s' => Ascii.eqb c d || mem c s'
  end.

Definition code (c : ascii) : nat := nat_of_ascii c.

Definition between (lo hi : nat) (c : ascii) : bool :=
  (lo <=? code c) && (code c <=? hi).

Definition is_digit : ascii → bool := between 48 57.
Definition is_upper : ascii → bool := between 65 90.
Definition is_lower : ascii → bool := between 97 122.

End Text.

(** ** Regular expressions, as [String.prototype.match] runs them

    The matcher is the backtracking one of the language definition: a
    pattern is run against the rest of the input with a continuation, and
    an alternative or a shorter repetition is tried when the continuation
    fails.  Only the constructs that occur in the source are present; a
    repetition is over a single-character atom, as both are there. *)

Module RegExp.

Inductive atom : Type :=
| Chr (c : ascii)          (* a literal character, escaped or not *)
| Dot                      (* [.] *)
| WordChar                 (* [\w] *)
| NoneOf (cs : string).    (* [[^...]] *)

Inductive regex : Type :=
| Eps
| Bol                      (* [^] *)
| One (a : atom)
| Star (a : atom)          (* greedy [a*] *)
| Seq (r1 r2 : regex)
| Alt (r1 r2 : regex)
| Group (n : nat) (r : regex).

(** Line feed and carriage return; the two other line terminators are
    code units above 255. *)
Definition is_line_terminator (c : ascii) : bool :=
  (Text.code c =? 10) || (Text.code c =? 13).

Definition is_word_char (c : ascii) : bool :=
  Text.is_lower c || Text.is_upper c || Text.is_digit c || Ascii.eqb c "_".

Definition atom_ok (a : atom) (c : ascii) : bool :=
  match a with
  | Chr d => Ascii.eqb c d
  | Dot => negb (is_line_terminator c)
  | WordChar => is_word_char c
  | NoneOf cs => negb (Text.mem c cs)
  end.

Fixpoint Lit (s : string) : regex :=
  match s with
  | EmptyString => Eps
  | String c s' => Seq (One (Chr c)) (Lit s')
  end.

(** The groups captured so far, by number. *)
Abbreviation captures := (gmap nat string).

Section Matcher.
Context {R : Type}.

(** A continuation receives the index reached, the input left and the
    captures. *)
Definition cont : Type := nat → string → captures → option R.

Fixpoint star (a : atom) (i : nat) (s : string) (caps : captures)
    (k : cont) {struct s} : option R :=
  match s with
  | String c s' =>
      if atom_ok a c then
        match star a (S i) s' caps k with
        | Some x => Some x
        | None => k i s caps
        end
      else k i s caps
  | EmptyString => k i s caps
  end.

Fixpoint run (r : regex) (i : nat) (s : string) (caps : captures)
    (k : cont) {struct r} : option R :=
  match r with
  | Eps => k i s caps
  | Bol => if (i =? 0) then k i s caps else None
  | One a =>
      match s with
      | String c s' => if atom_ok a c then k (S i) s' caps else None
      | EmptyString => None
      end
  | Star a => star a i s caps k
  | Seq r1 r2 => run r1 i s caps (λ i' s' caps', run r2 i' s' caps' k)
  | Alt r1 r2 =>
      match run r1 i s caps k with
      | Some x => Some x
      | None => run r2 i s caps k
      end
  | Group n r =>
      run r i s caps
        (λ i' s' caps', k i' s' (<[n := String.substring 0 (i' - i) s]> caps'))
  end.
End Matcher.

(** The continuation at the end of the pattern: the match is found. *)
Definition accept : @cont captures := λ _ _ caps, Some caps.

(** [exec]: the pattern is tried at index 0, then 1, and so on up to the
    end of the input; the first success gives the match. *)
Fixpoint exec_from (r : regex) (i : nat) (s : string) : option captures :=
  match run r i s ∅ accept with
  | Some caps => Some caps
  | None =>
      match s with
      | String _ s' => exec_from r (S i) s'
      | EmptyString => None
      end
  end.

Definition exec (r : regex) (s : string) : option captures :=
  exec_from r 0 s.

End RegExp.

Import RegExp.

(** ** utils.ts *)

(** The alternatives of the first group of [regExp]. *)
Definition markers : regex :=
  Alt (Seq (Lit "youtu") (Seq (One Dot) (Lit "be/")))
 (Alt (Lit "v/")
 (Alt (Seq (Lit "u/") (Seq (One WordChar) (Lit "/")))
 (Alt (Lit "embed/")
 (Alt (Lit "watch?v=")
      (Lit "&v="))))).

(** The pattern literal of [getYouTubeId], token by token:
    ^  .*  ( youtu.be\/ | v\/ | u\/\w\/ | embed\/ | watch\?v= | &v= )
    ( [^#&?]* )  .*   *)
Definition regExp : regex :=
  Seq Bol
 (Seq (Star Dot)
 (Seq (Group 1 markers)
 (Seq (Group 2 (Star (NoneOf "#&?")))
      (Star Dot)))).

(** [getYouTubeId]: [(match && match[2].length === 11) ? match[2] : null].
    The second group takes part in every match, so [match[2]] is a string
    whenever [match] is not [null]. *)
Definition getYouTubeId (url : string) : option string :=
  match exec regExp url with
  | Some m =>
      match m !! 2 with
      | Some id => if (String.length id =? 11) then Some id else None
      | None => None
      end
  | None => None
  end.

Definition getThumbnailUrl (videoId : string) : string :=
  "https://img.youtube.com/vi/" +:+ videoId +:+ "/maxresdefault.jpg".

(** ** Strings of the language runtime *)

(** [toLowerCase], on code units below 256: the upper-case letters of
    Basic Latin and of Latin-1 (all of U+00C0..U+00DE but the
    multiplication sign U+00D7) move up by 32. *)
Definition lower_char (c : ascii) : ascii :=
  if Text.is_upper c || Text.between 192 214 c || Text.between 216 222 c
  then ascii_of_nat (Text.code c + 32)
  else c.

Fixpoint toLowerCase (s : string) : string :=
  match s with
  | EmptyString => EmptyString
  | String c s' => String (lower_char c) (toLowerCase s')
  end.

(** [s.includes(search)]: [search] occurs in [s] at some index. *)
Fixpoint includes (s search : string) : bool :=
  String.prefix search s ||
  match s with
  | String _ s' => includes s' search
  | EmptyString => false
  end.

(** Truthiness of a value that is a string or [undefined]/[null]. *)
Definition truthy (v : option string) : bool :=
  match v with
  | Some s => negb (String.eqb s "")
  | None => false
  end.

(** The decimal text of an array index, as a template literal prints it. *)
Definition Number_toString (n : nat) : string :=
  NilEmpty.string_of_uint (Nat.to_uint n).

(** ** Completions *)

Inductive exn : Type :=
| TypeError                   (* a property read or a call on [undefined] *)
| Error (message : string).

Inductive completion (A : Type) : Type :=
| Normal (a : A)
| Throw (e : exn).
Arguments Normal {A} a.
Arguments Throw {A} e.

#[global] Instance completion_ret : MRet completion := λ A a, Normal a.

#[global] Instance completion_bind : MBind completion := λ A B f c,
  match c with
  | Normal a => f a
  | Throw e => Throw e
  end.

(** [Array.prototype.map] with the index as second argument; the callback
    is called on the elements in order, and a throw ends the call. *)
Fixpoint Array_map {A B : Type} (f : A → nat → completion B) (index : nat)
    (l : list A) : completion (list B) :=
  match l with
  | [] => Normal []
  | x :: l' =>
      y ← f x index;
      ys ← Array_map f (S index) l';
      mret (y :: ys)
  end.

(** [Array.prototype.filter], same conventions. *)
Fixpoint Array_filter {A : Type} (f : A → completion bool) (l : list A)
    : completion (list A) :=
  match l with
  | [] => Normal []
  | x :: l' =>
      keep ← f x;
      ys ← Array_filter f l';
      mret (if keep : bool then x :: ys else ys)
  end.

(** ** types.ts *)

Inductive Language : Type := tl | en.

#[global] Instance Language_eq_dec : EqDecision Language.
Proof. solve_decision. Defined.

(** An object built for the [Devotional] interface, as it is at run time:
    the fields copied from a parsed row are [undefined] when the row lacks
    them, whatever the interface declares. *)
Record Devotional : Type := mkDevotional {
  id : string;
  date : option string;
  title : option string;
  speaker : option string;
  language : Language;
  scripture : option string;
  videoUrl : option string;
  thumbnailUrl : string;
}.

(** A row of [results.data] when the parser runs with [header: true]: an
    object from header names to cell texts. *)
Abbreviation Row := (gmap string string).

(** ** Dates *)

Module JSDate.

Definition msPerDay : Z := 86400000.

Definition DayFromYear (y : Z) : Z :=
  365 * (y - 1970) + (y - 1969) / 4 - (y - 1901) / 100 + (y - 1601) / 400.

Definition InLeapYear (y : Z) : bool :=
  ((y mod 4 =? 0) && negb (y mod 100 =? 0) || (y mod 400 =? 0))%Z.

(** Days before the first of month [m] (1 to 12) in a year. *)
Definition DaysBeforeMonth (leap : bool) (m : Z) : Z :=
  (match m with
   | 1 => 0 | 2 => 31 | 3 => 59 | 4 => 90 | 5 => 120 | 6 => 151
   | 7 => 181 | 8 => 212 | 9 => 243 | 10 => 273 | 11 => 304 | _ => 334
   end + (if leap && (3 <=? m) then 1 else 0))%Z.

Definition DaysInMonth (leap : bool) (m : Z) : Z :=
  (match m with
   | 2 => if leap then 29 else 28
   | 4 | 6 | 9 | 11 => 30
   | _ => 31
   end)%Z.

Definition MakeDay (y m d : Z) : Z :=
  (DayFromYear y + DaysBeforeMonth (InLeapYear y) m + d - 1)%Z.

Definition digit (c : ascii) : option Z :=
  if Text.is_digit c then Some (Z.of_nat (Text.code c) - 48)%Z else None.

(** Exactly [n] decimal digits at the head of [s]. *)
Fixpoint digits (n : nat) (acc : Z) (s : string) : option (Z * string) :=
  match n with
  | O => Some (acc, s)
  | S n' =>
      match s with
      | String c s' => v ← digit c; digits n' (10 * acc + v)%Z s'
      | EmptyString => None
      end
  end.

Definition hyphen (s : string) : option string :=
  match s with
  | String c s' => if Ascii.eqb c "-" then Some s' else None
  | EmptyString => None
  end.

(** The date-only form [YYYY-MM-DD] of the date-time string format, for
    a day that exists in the calendar. *)
Definition iso_date (s : string) : option (Z * Z * Z) :=
  '(y, s1) ← digits 4 0 s;
  s2 ← hyphen s1;
  '(m, s3) ← digits 2 0 s2;
  s4 ← hyphen s3;
  '(d, s5) ← digits 2 0 s4;
  if String.eqb s5 "" && (1 <=? m)%Z && (m <=? 12)%Z && (1 <=? d)%Z
     && (d <=? DaysInMonth (InLeapYear y) m)%Z
  then Some (y, m, d) else None.

(** The dates that [iso_date] yields: a month and a day that exist. *)
Definition valid (ymd : Z * Z * Z) : Prop :=
  let '(y, m, d) := ymd in
  (1 ≤ m ≤ 12 ∧ 1 ≤ d ≤ DaysInMonth (InLeapYear y) m)%Z.

(** The time value of a calendar date: midnight UTC of that day. *)
Definition time_of (ymd : Z * Z * Z) : Z :=
  let '(y, m, d) := ymd in (MakeDay y m d * msPerDay)%Z.

Section Parse.
(** What the engine makes of a text that is not such a date (other
    forms of the format, and its own fallback formats); [None] is the
    [NaN] time value. *)
Variable engine_parse : string → option Z.

Definition parse (s : string) : option Z :=
  match iso_date s with
  | Some ymd => Some (time_of ymd)
  | None => engine_parse s
  end.

(** [new Date(v).getTime()] for a string or [undefined]. *)
Definition getTime (v : option string) : option Z :=
  match v with
  | Some s => parse s
  | None => None
  end.
End Parse.

End JSDate.

(** ** [Array.prototype.sort] *)

Section Sort.
Context {A : Type}.
(** The comparison function; [None] is a [NaN] result. *)
Variable comparefn : A → A → option Z.

(** A [NaN] from the comparison function counts as zero. *)
Definition SortCompare (x y : A) : Z := default 0%Z (comparefn x y).

(** The sort is stable.  When the comparison function is consistent
    every stable sort gives the same array; insertion is the one written
    here.  With an inconsistent comparison function (a [NaN] among the
    results) the order is the engine's own: statements about the order of
    the sorted array carry the hypothesis that rules this out. *)
Fixpoint sort_insert (x : A) (l : list A) : list A :=
  match l with
  | [] => [x]
  | y :: l' =>
      if (SortCompare x y <=? 0)%Z then x :: l else y :: sort_insert x l'
  end.

Fixpoint Array_sort (l : list A) : list A :=
  match l with
  | [] => []
  | x :: l' => sort_insert x (Array_sort l')
  end.
End Sort.

(** ** App.tsx: the [useDevotionals] hook *)

(** The three [useState] cells of the hook. *)
Record HookState : Type := mkHookState {
  devotionals : list Devotional;
  loading : bool;
  error : option string;
}.

Definition setDevotionals (v : list Devotional) (st : HookState) : HookState :=
  {| devotionals := v; loading := loading st; error := error st |}.

Definition setLoading (v : bool) (st : HookState) : HookState :=
  {| devotionals := devotionals st; loading := v; error := error st |}.

Definition setError (v : option string) (st : HookState) : HookState :=
  {| devotionals := devotionals st; loading := loading st; error := v |}.

(** [useState([])], [useState(true)], [useState(null)]. *)
Definition initial : HookState :=
  {| devotionals := []; loading := true; error := None |}.

(** How [fetch] settles: the promise rejects, or resolves to a response
    with its [ok] flag and body text. *)
Inductive FetchResult : Type :=
| Rejected
| Response (ok : bool) (text : string).

(** Which callback of its configuration [Papa.parse] calls: [complete]
    with [results.data], or [error]. *)
Inductive PapaResult : Type :=
| Complete (data : list Row)
| ParseError.

(** The [filter] callback: [row['Date'] && row['Title']]. *)
Definition row_valid (row : Row) : bool :=
  truthy (row !! "Date") && truthy (row !! "Title").

(** [getYouTubeId(row['Video URL']) || '']; the call reads [url.match], which
    throws when the row has no such field. *)
Definition videoId_of (row : Row) : completion string :=
  match row !! "Video URL" with
  | None => Throw TypeError
  | Some url =>
      let found := getYouTubeId url in
      Normal (if truthy found then default "" found else "")
  end.

(** [row['Language']?.toLowerCase() === 'en' ? 'en' : 'tl'] *)
Definition language_of (v : option string) : Language :=
  match v with
  | Some s => if String.eqb (toLowerCase s) "en" then en else tl
  | None => tl
  end.

Definition placeholder : string := "https://picsum.photos/800/600?grayscale".

(** The [map] callback. *)
Definition normalize (row : Row) (index : nat) : completion Devotional :=
  videoId ← videoId_of row;
  mret {| id := "sheet-" +:+ Number_toString index;
          date := row !! "Date";
          title := row !! "Title";
          speaker := row !! "Speaker";
          language := language_of (row !! "Language");
          scripture := row !! "Scripture";
          videoUrl := row !! "Video URL";
          thumbnailUrl :=
            if truthy (Some videoId) then getThumbnailUrl videoId
            else placeholder |}.

Definition parsedData (data : list Row) : completion (list Devotional) :=
  Array_map normalize 0 (List.filter row_valid data).

Section Hook.
(** The fallback dataset of [constants.ts]. *)
Variable MOCK_DEVOTIONALS : list Devotional.
(** The date parsing of the engine outside calendar dates. *)
Variable engine_parse : string → option Z.
(** The network and the parser. *)
Variable fetch : string → FetchResult.
Variable Papa_parse : string → PapaResult.

(** [new Date(b.date).getTime() - new Date(a.date).getTime()] *)
Definition by_date (a b : Devotional) : option Z :=
  tb ← JSDate.getTime engine_parse (date b);
  ta ← JSDate.getTime engine_parse (date a);
  Some (tb - ta)%Z.

Definition sortedData (parsed : list Devotional) : list Devotional :=
  Array_sort by_date parsed.

(** The [complete] callback. *)
Definition complete (data : list Row) (st : HookState)
    : completion HookState :=
  parsed ← parsedData data;
  mret (setLoading false (setDevotionals (sortedData parsed) st)).

(** The [error] callback. *)
Definition parse_error (st : HookState) : HookState :=
  setLoading false (setError (Some "Failed to parse data") st).

(** The [catch] handler at the end of the promise chain. *)
Definition catch (st : HookState) : HookState :=
  setLoading false
    (setDevotionals MOCK_DEVOTIONALS
       (setError (Some "Failed to load devotionals") st)).

(** The effect of the hook, run to the point where its timer or its
    promise chain has settled.  [Papa.parse] on a text calls [complete]
    before it returns, so that a throw in the callback rejects the
    promise of the [then] handler and reaches [catch]. *)
Definition useDevotionals (GOOGLE_SHEET_CSV_URL : string) : HookState :=
  let st := initial in
  if negb (truthy (Some GOOGLE_SHEET_CSV_URL)) then
    setLoading false (setDevotionals MOCK_DEVOTIONALS st)
  else
    let st := setLoading true st in
    match fetch GOOGLE_SHEET_CSV_URL with
    | Rejected => catch st
    | Response ok csvText =>
        if negb ok then catch st
        else
          match Papa_parse csvText with
          | Complete data =>
              match complete data st with
              | Normal st' => st'
              | Throw _ => catch st
              end
          | ParseError => parse_error st
          end
    end.
End Hook.

(** ** App.tsx: [DevotionalsPage] *)

(** The filter selection, ['all' | 'tl' | 'en']. *)
Inductive Filter : Type := all | only (l : Language).

(** [v.toLowerCase()] on a value that may be [undefined]. *)
Definition call_toLowerCase (v : option string) : completion string :=
  match v with
  | Some s => Normal (toLowerCase s)
  | None => Throw TypeError
  end.

(** The callback of [devotionals.filter]. *)
Definition matches (filter : Filter) (searchTerm : string) (d : Devotional)
    : completion bool :=
  let matchesLang :=
    match filter with
    | all => true
    | only l => bool_decide (language d = l)
    end in
  t ← call_toLowerCase (title d);
  matchesSearch ←
    (if includes t (toLowerCase searchTerm) then mret true
     else s ← call_toLowerCase (speaker d);
          mret (includes s (toLowerCase searchTerm)));
  mret (matchesLang && matchesSearch).

Definition filteredDevotionals (devotionals : list Devotional)
    (filter : Filter) (searchTerm : string) : completion (list Devotional) :=
  Array_filter (matches filter searchTerm) devotionals.

(** What the page shows below the filter bar. *)
Inductive Panel : Type :=
| LoadingPanel
| ErrorPanel (message : string)
| Grid (cards : list Devotional)
| NothingFound.

Definition DevotionalsPage (st : HookState) (filtered : list Devotional)
    : list Panel :=
  (if loading st then [LoadingPanel] else []) ++
  (if truthy (error st) && negb (loading st)
   then [ErrorPanel (default "" (error st))] else []) ++
  (if negb (loading st) && negb (truthy (error st))
   then [Grid filtered] else []) ++
  (if negb (loading st) && (length filtered =? 0)
   then [NothingFound] else []).

(** ** Vocabulary of the statements *)

(** The alternation of [regExp] matches at the head of [s]: the number of
    characters it takes and the text after them. *)
Definition marker_here (s : string) : option (nat * string) :=
  run markers 0 s ∅ (λ i' s' _, Some (i', s')).

(** No marker begins anywhere in [s]. *)
Fixpoint marker_free (s : string) : bool :=
  match marker_here s with Some _ => false | None => true end &&
  match s with
  | String _ s' => marker_free s'
  | EmptyString => true
  end.

Definition single_line (s : string) : bool :=
  Text.forallb (λ c, negb (is_line_terminator c)) s.

(** The characters that end the second group: [#], [&] and [?]. *)
Definition is_delimiter (c : ascii) : bool := Text.mem c "#&?".

Definition segment (s : string) : bool :=
  Text.forallb (λ c, negb (is_delimiter c)) s.

(** [rest] is empty or begins with a delimiter. *)
Definition ends_segment (rest : string) : bool :=
  match rest with
  | EmptyString => true
  | String c _ => is_delimiter c
  end.

(** The path markers of the recognised link shapes. *)
Inductive link_marker : string → Prop :=
| marker_short_host : link_marker "youtu.be/"
| marker_v : link_marker "/v/"
| marker_u (d : ascii) : Text.is_digit d = true → link_marker ("/u/" +:+ String d "/")
| marker_embed : link_marker "/embed/"
| marker_watch : link_marker "watch?v="
| marker_amp_v : link_marker "&v=".

(** Calendar order of dates given as year, month and day. *)
Definition calendar_lt (a b : Z * Z * Z) : Prop :=
  let '(y, m, d) := a in
  let '(y', m', d') := b in
  (y < y' ∨ (y = y' ∧ (m < m' ∨ (m = m' ∧ d < d'))))%Z.

(** The rows of the example of the specification, in source order. *)
Definition dated_row (date title : string) : Row :=
  {[ "Date" := date; "Title" := title; "Video URL" := "" ]}.

Definition three_rows : list Row :=
  [dated_row "2024-05-01" "First"; dated_row "2024-05-20" "Second";
   dated_row "2024-03-10" "Third"].

(** [a] is at least as recent as [b]: both dates have a time value, and
    that of [a] is not the smaller one. *)
Definition newer_or_same (engine_parse : string → option Z)
    (a b : Devotional) : Prop :=
  ∃ ta tb, JSDate.getTime engine_parse (date a) = Some ta
           ∧ JSDate.getTime engine_parse (date b) = Some tb
           ∧ (tb ≤ ta)%Z.

(** The two filters of the list view, in the words of the specification. *)
Definition passes_language (filter : Filter) (d : Devotional) : Prop :=
  filter = all ∨ filter = only (language d).

(** [term] is, with case ignored, a substring of [text]. *)
Definition occurs_ignoring_case (term text : string) : Prop :=
  ∃ pre post, toLowerCase text = pre +:+ toLowerCase term +:+ post.

Definition passes_search (term : string) (d : Devotional) : Prop :=
  term = ""
  ∨ (∃ t, title d = Some t ∧ occurs_ignoring_case term t)
  ∨ (∃ s, speaker d = Some s ∧ occurs_ignoring_case term s).

(** The records of the filtering example of the specification. *)
Definition faith : Devotional :=
  {| id := "1"; date := Some "2024-05-20"; title := Some "Faith";
     speaker := Some "Juan dela Cruz"; language := en;
     scripture := Some "Mark 4:35-41"; videoUrl := Some "";
     thumbnailUrl := placeholder |}.

Definition pananampalataya : Devotional :=
  {| id := "2"; date := Some "2024-05-19"; title := Some "Pananampalataya";
     speaker := Some "Maria Santos"; language := tl;
     scripture := Some "Hebreo 11:1"; videoUrl := Some "";
     thumbnailUrl := placeholder |}.

(** What the callback of the filter computes on a record that has a title
    and a speaker. *)
Definition matches_typed (filter : Filter) (searchTerm : string)
    (d : Devotional) : bool :=
  match filter with
  | all => true
  | only l => bool_decide (language d = l)
  end &&
  (includes (toLowerCase (default "" (title d))) (toLowerCase searchTerm)
   || includes (toLowerCase (default "" (speaker d))) (toLowerCase searchTerm)).

(** Patterns without [^] and without groups. *)
Fixpoint plain (r : regex) : bool :=
  match r with
  | Eps | One _ | Star _ => true
  | Bol | Group _ _ => false
  | Seq r1 r2 | Alt r1 r2 => plain r1 && plain r2
  end.

(** ** Further vocabulary *)

(** Every match of [r] takes a literal character that satisfies [p]. *)
Fixpoint must_hit (p : ascii → bool) (r : regex) : bool :=
  match r with
  | One (Chr d) => p d
  | Seq r1 r2 => must_hit p r1 || must_hit p r2
  | Alt r1 r2 => must_hit p r1 && must_hit p r2
  | Group _ r' => must_hit p r'
  | _ => false
  end.

(** The slash and the equals sign: each marker ends with one of them. *)
Definition is_separator (c : ascii) : bool := Text.mem c "/=".

Definition separator_free (s : string) : bool :=
  Text.forallb (λ c, negb (is_separator c)) s.

(** No marker begins on the first line of [s], up to and including its
    first line terminator. *)
Fixpoint first_line_marker_free (s : string) : bool :=
  match marker_here s with Some _ => false | None => true end &&
  match s with
  | String c s' =>
      if is_line_terminator c then true else first_line_marker_free s'
  | EmptyString => true
  end.

(** ** types.ts: the run-time text of a language value *)

Definition Language_text (l : Language) : string :=
  match l with
  | tl => "tl"
  | en => "en"
  end.

(** ** INSTRUCTIONS.md: the loader of the integration guide *)

Module Guide.

(** The object that the [map] callback of the guide builds. *)
Record Entry : Type := mkEntry {
  id : string;
  date : option string;
  title : option string;
  speaker : option string;
  language : string;
  scripture : option string;
  videoUrl : option string;
  thumbnailUrl : string;
}.

(** The [map] callback: no default for the language, and the empty text
    where no identifier is found. *)
Definition normalize (row : Row) (index : nat) : completion Entry :=
  videoId ← videoId_of row;
  lang ← call_toLowerCase (row !! "Language");
  mret {| id := "sheet-" +:+ Number_toString index;
          date := row !! "Date";
          title := row !! "Title";
          speaker := row !! "Speaker";
          language := lang;
          scripture := row !! "Scripture";
          videoUrl := row !! "Video URL";
          thumbnailUrl :=
            if truthy (Some videoId) then getThumbnailUrl videoId else "" |}.

(** [results.data.map(...)]: every row is mapped, none is filtered out. *)
Definition parsedData (data : list Row) : completion (list Entry) :=
  Array_map normalize 0 data.

Section Sorted.
Variable engine_parse : string → option Z.

Definition by_date (a b : Entry) : option Z :=
  tb ← JSDate.getTime engine_parse (date b);
  ta ← JSDate.getTime engine_parse (date a);
  Some (tb - ta)%Z.

Definition sortedData (parsed : list Entry) : list Entry :=
  Array_sort by_date parsed.

(** The [complete] callback: the value given to [setDevotionals]. *)
Definition complete (data : list Row) : completion (list Entry) :=
  parsed ← parsedData data;
  mret (sortedData parsed).
End Sorted.

End Guide.

(** An entry of the guide and a record of the application hold the same
    data: equal fields, the language as its text, and the same thumbnail
    address or the empty text against the placeholder. *)
Definition agree (g : Guide.Entry) (d : Devotional) : Prop :=
  Guide.id g = id d
  ∧ Guide.date g = date d
  ∧ Guide.title g = title d
  ∧ Guide.speaker g = speaker d
  ∧ Guide.scripture g = scripture d
  ∧ Guide.videoUrl g = videoUrl d
  ∧ Guide.language g = Language_text (language d)
  ∧ (Guide.thumbnailUrl g = thumbnailUrl d
     ∨ (Guide.thumbnailUrl g = "" ∧ thumbnailUrl d = placeholder)).

(** A row filled in as the guide asks: a date, a title, a video cell and a
    language cell that is "tl" or "en" in any case. *)
Definition well_formed (row : Row) : Prop :=
  row_valid row = true
  ∧ is_Some (row !! "Video URL")
  ∧ ∃ s, row !! "Language" = Some s
         ∧ (toLowerCase s = "en" ∨ toLowerCase s = "tl").

(** * Properties *)

(** ** Sample runs *)

Example getYouTubeId_watch :
  getYouTubeId "https://www.youtube.com/watch?v=dQw4w9WgXcQ" = Some "dQw4w9WgXcQ".
Proof. vm_compute. reflexivity. Qed.

Example getYouTubeId_short :
  getYouTubeId "https://youtu.be/dQw4w9WgXcQ?t=42" = Some "dQw4w9WgXcQ".
Proof. vm_compute. reflexivity. Qed.

Example getYouTubeId_truncated :
  getYouTubeId "https://youtu.be/dQw4w9WgX" = None.
Proof. vm_compute. reflexivity. Qed.

Example getYouTubeId_plain_text :
  getYouTubeId "not a link" = None.
Proof. vm_compute. reflexivity. Qed.

Example iso_date_ex : JSDate.iso_date "2024-05-20" = Some (2024, 5, 20)%Z.
Proof. reflexivity. Qed.

Example time_of_ex : JSDate.time_of (2024, 5, 20)%Z = 1716163200000%Z.
Proof. reflexivity. Qed.

Example iso_date_no_such_day : JSDate.iso_date "2023-02-29" = None.
Proof. reflexivity. Qed.

(** ** Texts *)

Lemma append_cons (c : ascii) (a b : string) :
  String c a +:+ b = String c (a +:+ b).
Proof. reflexivity. Qed.

Lemma append_nil_l (a : string) : "" +:+ a = a.
Proof. reflexivity. Qed.

Ltac text_simpl :=
  simpl; rewrite ?append_cons, ?append_nil_l; simpl.

Lemma append_assoc (a b c : string) : (a +:+ b) +:+ c = a +:+ (b +:+ c).
Proof. induction a as [|x a IH]; text_simpl; [reflexivity | now f_equal]. Qed.

Lemma append_nil_r (a : string) : a +:+ "" = a.
Proof. induction a as [|x a IH]; text_simpl; [reflexivity | now f_equal]. Qed.

Lemma length_append (a b : string) :
  String.length (a +:+ b) = String.length a + String.length b.
Proof. induction a as [|x a IH]; text_simpl; [reflexivity | now f_equal]. Qed.

Lemma substring_0_append (a b : string) :
  String.substring 0 (String.length a) (a +:+ b) = a.
Proof. induction a as [|x a IH]; text_simpl; [now destruct b | now f_equal]. Qed.

Lemma take_drop_while (p : ascii → bool) (s : string) :
  Text.take_while p s +:+ Text.drop_while p s = s.
Proof.
  induction s as [|c s IH]; simpl; [reflexivity|].
  destruct (p c); text_simpl; [now rewrite IH | reflexivity].
Qed.

Lemma substring_take_while (p : ascii → bool) (s : string) :
  String.substring 0 (String.length (Text.take_while p s)) s = Text.take_while p s.
Proof.
  rewrite <- (take_drop_while p s) at 2. apply substring_0_append.
Qed.

Lemma drop_append (a b : string) : Text.drop (String.length a) (a +:+ b) = b.
Proof. induction a as [|x a IH]; text_simpl; [reflexivity | exact IH]. Qed.

Lemma take_while_segment (p : ascii → bool) (seg rest : string) :
  Text.forallb p seg = true →
  match rest with EmptyString => true | String c _ => negb (p c) end = true →
  Text.take_while p (seg +:+ rest) = seg.
Proof.
  intros Hseg Hrest. induction seg as [|c seg IH]; text_simpl; simpl in Hseg.
  - destruct rest as [|c rest]; [reflexivity|]. simpl.
    apply negb_true_iff in Hrest. now rewrite Hrest.
  - apply andb_true_iff in Hseg as [Hc Hseg]. rewrite Hc. now rewrite IH.
Qed.

(** ** The matcher *)

Module RegExpFacts.

Section Star.
Context {R : Type}.
Implicit Types (k : @cont R) (caps : captures).

(** The repetition may take a whole prefix of matching characters
    when what follows succeeds from there. *)
Lemma star_skip a pre : ∀ i t caps k x,
  Text.forallb (atom_ok a) pre = true →
  star a (i + String.length pre) t caps k = Some x →
  star a i (pre +:+ t) caps k = Some x.
Proof.
  induction pre as [|c pre IH]; intros i t caps k x Hpre Hk;
    text_simpl; simpl in Hpre, Hk.
  - now rewrite Nat.add_0_r in Hk.
  - apply andb_true_iff in Hpre as [Hc Hpre]. rewrite Hc.
    rewrite (IH (S i) t caps k x Hpre); [reflexivity|].
    now replace (S i + String.length pre) with (i + S (String.length pre)) by lia.
Qed.

Lemma star_none a : ∀ t i caps k,
  (∀ j, j ≤ String.length t → k (i + j) (Text.drop j t) caps = None) →
  star a i t caps k = None.
Proof.
  induction t as [|c t IH]; intros i caps k Hk; simpl.
  - specialize (Hk 0). rewrite Nat.add_0_r in Hk. apply Hk. simpl; lia.
  - assert (H0 : k i (String c t) caps = None).
    { specialize (Hk 0). rewrite Nat.add_0_r in Hk. apply Hk. simpl; lia. }
    destruct (atom_ok a c); [|exact H0].
    rewrite IH; [exact H0|].
    intros j Hj. specialize (Hk (S j)). simpl in Hk.
    replace (S i + j) with (i + S j) by lia. apply Hk. lia.
Qed.

(** When the continuation fails at every later index, the repetition
    gives back everything it took. *)
Lemma star_here a t i caps k :
  (∀ j, 1 ≤ j → j ≤ String.length t →
        k (i + j) (Text.drop j t) caps = None) →
  star a i t caps k = k i t caps.
Proof.
  intros Hk. destruct t as [|c t]; simpl; [reflexivity|].
  destruct (atom_ok a c); [|reflexivity].
  rewrite star_none; [reflexivity|].
  intros j Hj. specialize (Hk (S j)). simpl in Hk.
  replace (S i + j) with (i + S j) by lia. apply Hk; lia.
Qed.

(** When the continuation succeeds after the longest run, that is the
    result. *)
Lemma star_longest a : ∀ s i caps k x,
  k (i + String.length (Text.take_while (atom_ok a) s))
    (Text.drop_while (atom_ok a) s) caps = Some x →
  star a i s caps k = Some x.
Proof.
  induction s as [|c s IH]; intros i caps k x Hk; simpl in *.
  - now rewrite Nat.add_0_r in Hk.
  - destruct (atom_ok a c); simpl in Hk.
    + rewrite (IH (S i) caps k x); [reflexivity|].
      now replace (S i + String.length (Text.take_while (atom_ok a) s))
        with (i + S (String.length (Text.take_while (atom_ok a) s))) by lia.
    + now rewrite Nat.add_0_r in Hk.
Qed.
End Star.

Section Related.
Context {R1 R2 : Type} (rel : R1 → R2 → Prop).

Lemma star_related a : ∀ s i1 i2 c1 c2 (k1 : @cont R1) (k2 : @cont R2),
  (∀ n s', option_Forall2 rel (k1 (i1 + n) s' c1) (k2 (i2 + n) s' c2)) →
  option_Forall2 rel (star a i1 s c1 k1) (star a i2 s c2 k2).
Proof.
  induction s as [|c s IH]; intros i1 i2 c1 c2 k1 k2 Hk; simpl.
  - specialize (Hk 0 ""). now rewrite !Nat.add_0_r in Hk.
  - assert (H0 := Hk 0 (String c s)). rewrite !Nat.add_0_r in H0.
    destruct (atom_ok a c); [|exact H0].
    assert (IH' : option_Forall2 rel (star a (S i1) s c1 k1) (star a (S i2) s c2 k2)).
    { apply IH. intros n s'. specialize (Hk (S n) s').
      now replace (S i1 + n) with (i1 + S n) by lia;
          replace (S i2 + n) with (i2 + S n) by lia. }
    destruct IH'; [now constructor | exact H0].
Qed.

(** Two runs of a plain pattern whose continuations agree, index by
    index, on failure and are related on success, agree in the same
    way. *)
Lemma run_related r : plain r = true →
  ∀ s i1 i2 c1 c2 (k1 : @cont R1) (k2 : @cont R2),
  (∀ n s', option_Forall2 rel (k1 (i1 + n) s' c1) (k2 (i2 + n) s' c2)) →
  option_Forall2 rel (run r i1 s c1 k1) (run r i2 s c2 k2).
Proof.
  induction r as [| |a|a|r1 IH1 r2 IH2|r1 IH1 r2 IH2|n r IH];
    simpl; intros Hp s i1 i2 c1 c2 k1 k2 Hk; try discriminate.
  - specialize (Hk 0 s). now rewrite !Nat.add_0_r in Hk.
  - destruct s as [|c s]; [constructor|].
    destruct (atom_ok a c); [|constructor].
    specialize (Hk 1 s). now rewrite !Nat.add_1_r in Hk.
  - now apply star_related.
  - apply andb_true_iff in Hp as [Hp1 Hp2].
    apply IH1; [exact Hp1|]. intros n s'.
    apply IH2; [exact Hp2|]. intros n' s''.
    specialize (Hk (n + n') s''). now rewrite !Nat.add_assoc in Hk.
  - apply andb_true_iff in Hp as [Hp1 Hp2].
    destruct (IH1 Hp1 s i1 i2 c1 c2 k1 k2 Hk); [now constructor|].
    now apply IH2.
Qed.
End Related.

End RegExpFacts.

(** ** [getYouTubeId] *)

Section RegExpOfGetYouTubeId.
Import RegExpFacts.

Local Abbreviation kfin := accept.
Local Abbreviation not_delim := (atom_ok (NoneOf "#&?")).
Local Abbreviation tail_pattern :=
  (Seq (Group 2 (Star (NoneOf "#&?"))) (Star Dot)).

(** The second group and the final repetition never fail: the group
    takes the longest run of characters other than the delimiters. *)
Lemma run_tail_pattern i s caps :
  run tail_pattern i s caps kfin
  = Some (<[2 := Text.take_while not_delim s]> caps).
Proof.
  simpl. apply star_longest. apply star_longest. unfold accept.
  do 2 f_equal.
  replace (i + String.length (Text.take_while not_delim s) - i)
    with (String.length (Text.take_while not_delim s)) by lia.
  apply substring_take_while.
Qed.

(** What follows the leading repetition matches at an index exactly when
    a marker begins there. *)
Lemma run_after_prefix i s caps :
  run (Seq (Group 1 markers) tail_pattern) i s caps kfin
  = '(n, s') ← marker_here s;
    Some (<[2 := Text.take_while not_delim s']>
            (<[1 := String.substring 0 n s]> caps)).
Proof.
  set (rel := λ (y : nat * string) (x : captures),
         x = <[2 := Text.take_while not_delim y.2]>
               (<[1 := String.substring 0 y.1 s]> caps)).
  assert (H : option_Forall2 rel (marker_here s)
                (run (Seq (Group 1 markers) tail_pattern) i s caps kfin)).
  { unfold marker_here.
    change (run (Seq (Group 1 markers) tail_pattern) i s caps kfin)
      with (run markers i s caps
              (λ i' s' caps',
                 run tail_pattern i' s'
                   (<[1 := String.substring 0 (i' - i) s]> caps') kfin)).
    apply run_related; [reflexivity|]. intros n s'.
    rewrite run_tail_pattern. constructor.
    unfold rel. cbn [fst snd]. do 3 f_equal. lia. }
  destruct H as [[n s'] x Hrel|]; [|reflexivity].
  cbn. now rewrite Hrel.
Qed.

Lemma marker_free_drop s :
  marker_free s = true →
  ∀ j, j ≤ String.length s → marker_here (Text.drop j s) = None.
Proof.
  induction s as [|c s IH]; cbn [marker_free]; intros H j Hj.
  - apply andb_true_iff in H as [H _].
    destruct j; cbn [Text.drop]; now destruct (marker_here "").
  - apply andb_true_iff in H as [H H'].
    destruct j as [|j]; cbn [Text.drop].
    + now destruct (marker_here (String c s)).
    + apply IH; [exact H'|]. simpl in Hj. lia.
Qed.

(** The match found when a marker begins after a prefix without line
    terminator and no marker begins later. *)
Lemma exec_regExp_last_marker pre c t n s' :
  single_line pre = true →
  marker_here (String c t) = Some (n, s') →
  marker_free t = true →
  exec regExp (pre +:+ String c t)
  = Some (<[2 := Text.take_while not_delim s']>
            (<[1 := String.substring 0 n (String c t)]> ∅)).
Proof.
  intros Hpre Hhere Hfree.
  unfold exec.
  assert (Hrun : run regExp 0 (pre +:+ String c t) ∅ kfin
                 = Some (<[2 := Text.take_while not_delim s']>
                           (<[1 := String.substring 0 n (String c t)]> ∅))).
  { cbn [run regExp Nat.eqb]. apply star_skip; [exact Hpre|].
    rewrite star_here.
    - change (run (Seq (Group 1 markers) tail_pattern)
                (0 + String.length pre) (String c t) ∅ kfin =
              Some (<[2 := Text.take_while not_delim s']>
                      (<[1 := String.substring 0 n (String c t)]> ∅))).
      rewrite run_after_prefix, Hhere. reflexivity.
    - intros j Hj1 Hj2.
      change (run (Seq (Group 1 markers) tail_pattern)
                (0 + String.length pre + j) (Text.drop j (String c t)) ∅ kfin
              = None).
      rewrite run_after_prefix.
      destruct j as [|j]; [lia|]. cbn [Text.drop].
      rewrite (marker_free_drop t Hfree j); [reflexivity|].
      simpl in Hj2. lia. }
  destruct (pre +:+ String c t) eqn:E; cbn [exec_from];
    now rewrite Hrun.
Qed.

Lemma getYouTubeId_last_marker pre c t n s' :
  single_line pre = true →
  marker_here (String c t) = Some (n, s') →
  marker_free t = true →
  getYouTubeId (pre +:+ String c t)
  = let seg := Text.take_while (λ c, negb (is_delimiter c)) s' in
    if String.length seg =? 11 then Some seg else None.
Proof.
  intros Hpre Hhere Hfree. unfold getYouTubeId.
  rewrite (exec_regExp_last_marker pre c t n s' Hpre Hhere Hfree).
  rewrite lookup_insert_eq. reflexivity.
Qed.
End RegExpOfGetYouTubeId.

Lemma single_line_append (a b : string) :
  single_line a = true → single_line b = true → single_line (a +:+ b) = true.
Proof.
  unfold single_line. intros Ha Hb.
  induction a as [|c a IH]; text_simpl; [exact Hb|].
  simpl in Ha. apply andb_true_iff in Ha as [Hc Ha].
  now rewrite Hc, IH.
Qed.

Lemma is_digit_cases (d : ascii) :
  Text.is_digit d = true →
  d ∈ ["0"; "1"; "2"; "3"; "4"; "5"; "6"; "7"; "8"; "9"]%char.
Proof.
  destruct d as [[] [] [] [] [] [] [] []]; vm_compute; intros H;
    try discriminate H; set_solver.
Qed.

(** A link made of a prefix, some characters [skip] of a marker, the part
    [String c mk] of it that the pattern takes, a segment and a rest. *)
Lemma getYouTubeId_shape pre skip c mk seg rest n :
  single_line pre = true →
  single_line skip = true →
  (∀ tail, marker_here (String c (mk +:+ tail)) = Some (n, tail)) →
  (∀ tail, marker_free tail = true → marker_free (mk +:+ tail) = true) →
  segment seg = true →
  ends_segment rest = true →
  marker_free (seg +:+ rest) = true →
  getYouTubeId (pre +:+ (skip +:+ String c mk) +:+ seg +:+ rest)
  = if String.length seg =? 11 then Some seg else None.
Proof.
  intros Hpre Hskip Hhere Hin Hseg Hrest Hfree.
  rewrite (append_assoc skip), <- (append_assoc pre skip), append_cons.
  rewrite (getYouTubeId_last_marker _ c _ n (seg +:+ rest)).
  - cbn zeta. rewrite take_while_segment; [reflexivity | exact Hseg |].
    destruct rest; [reflexivity|]. simpl in *. now rewrite Hrest.
  - now apply single_line_append.
  - apply Hhere.
  - now apply Hin.
Qed.

Local Ltac shape_tac :=
  first [ done
        | intros tail; vm_compute; reflexivity
        | intros tail Htail; cbn; exact Htail ].

(** C3, amended.  A link of a recognised shape is a prefix on one line,
    one of the listed markers, and a segment free of the delimiters [#],
    [&] and [?] that runs to the end of the text or to a delimiter.  When
    no further marker begins after the marker, in the segment or in what
    follows it, [getYouTubeId] returns the segment when it is 11 characters
    long, and [null] when it has any other length.  Without that condition
    the property fails: the leading repetition is greedy, and a later
    marker takes the place of the listed one, as the counterexample below
    shows. *)
Theorem getYouTubeId_recognized_shape (pre mk seg rest : string) :
  link_marker mk →
  single_line pre = true →
  segment seg = true →
  ends_segment rest = true →
  marker_free (seg +:+ rest) = true →
  getYouTubeId (pre +:+ mk +:+ seg +:+ rest)
  = if String.length seg =? 11 then Some seg else None.
Proof.
  intros Hmk Hpre Hseg Hrest Hfree.
  destruct Hmk as [| |d Hd| | |].
  - apply (getYouTubeId_shape pre "" "y" "outu.be/" seg rest 9); shape_tac.
  - apply (getYouTubeId_shape pre "/" "v" "/" seg rest 2); shape_tac.
  - apply is_digit_cases in Hd.
    repeat (apply elem_of_cons in Hd as [->|Hd]);
      [..|now apply elem_of_nil in Hd];
      (apply (getYouTubeId_shape pre "/" "u" _ seg rest 4); shape_tac).
  - apply (getYouTubeId_shape pre "/" "e" "mbed/" seg rest 6); shape_tac.
  - apply (getYouTubeId_shape pre "" "w" "atch?v=" seg rest 8); shape_tac.
  - apply (getYouTubeId_shape pre "" "&" "v=" seg rest 3); shape_tac.
Qed.

Lemma getYouTubeId_recognized_shape_witness :
  getYouTubeId ("https://www.youtube.com/" +:+ "watch?v=" +:+ "dQw4w9WgXcQ" +:+ "&t=42s")
  = Some "dQw4w9WgXcQ"
  ∧ getYouTubeId ("https://" +:+ "youtu.be/" +:+ "dQw4w9Wg" +:+ "")
  = None.
Proof.
  split.
  - apply (getYouTubeId_recognized_shape
             "https://www.youtube.com/" "watch?v=" "dQw4w9WgXcQ" "&t=42s");
      [constructor | reflexivity..].
  - apply (getYouTubeId_recognized_shape "https://" "youtu.be/" "dQw4w9Wg" "");
      [constructor | reflexivity..].
Defined.

(** C3 as first stated fails.  These two links are of recognised shapes,
    with a segment of 11 characters free of delimiters that ends at a
    delimiter, and [getYouTubeId] returns [null] on both: a marker occurs
    again in the query string ("v/" in "PLv/" and in "dev/"), and the
    group captured is the text after that last occurrence. *)
Lemma getYouTubeId_later_marker_wins :
  (link_marker "watch?v="
   ∧ single_line "https://www.youtube.com/" = true
   ∧ segment "dQw4w9WgXcQ" = true
   ∧ ends_segment "&list=PLv/abc" = true
   ∧ (if String.length "dQw4w9WgXcQ" =? 11 then Some "dQw4w9WgXcQ" else None)
     = Some "dQw4w9WgXcQ"
   ∧ getYouTubeId
       ("https://www.youtube.com/" +:+ "watch?v=" +:+ "dQw4w9WgXcQ"
          +:+ "&list=PLv/abc")
     = None)
  ∧ (link_marker "/embed/"
     ∧ single_line "https://www.youtube.com" = true
     ∧ segment "dQw4w9WgXcQ" = true
     ∧ ends_segment "?origin=https://riseup.dev/" = true
     ∧ getYouTubeId
         ("https://www.youtube.com" +:+ "/embed/" +:+ "dQw4w9WgXcQ"
            +:+ "?origin=https://riseup.dev/")
       = None).
Proof.
  split.
  - split; [constructor|]. repeat split; vm_compute; reflexivity.
  - split; [constructor|]. repeat split; vm_compute; reflexivity.
Qed.

(** [includes] finds exactly the texts that occur somewhere in [s]. *)
Lemma prefix_spec (a s : string) :
  String.prefix a s = true ↔ ∃ post, s = a +:+ post.
Proof.
  revert s. induction a as [|c a IH]; intros s.
  - split; [intros _; now exists s | intros _; now destruct s].
  - destruct s as [|d s]; simpl.
    + split; [discriminate | intros [post H]; discriminate H].
    + destruct (Ascii.ascii_dec c d) as [->|Hne].
      * rewrite IH. split; intros [post H]; exists post.
        -- now rewrite append_cons, H.
        -- rewrite append_cons in H. now injection H.
      * split; [discriminate|]. intros [post H].
        rewrite append_cons in H. injection H as H1 _. now symmetry in H1.
Qed.

Lemma includes_spec (s x : string) :
  includes s x = true ↔ ∃ pre post, s = pre +:+ x +:+ post.
Proof.
  induction s as [|c s IH]; cbn [includes].
  - rewrite orb_false_r, prefix_spec. split.
    + intros [post H]. now exists "", post.
    + intros [pre [post H]]. destruct pre; [now exists post|].
      rewrite append_cons in H. discriminate H.
  - rewrite orb_true_iff, prefix_spec, IH. split.
    + intros [[post H]|[pre [post H]]].
      * now exists "", post.
      * exists (String c pre), post. now rewrite append_cons, H.
    + intros [pre [post H]]. destruct pre as [|d pre].
      * left. now exists post.
      * right. rewrite append_cons in H. injection H as _ H.
        now exists pre, post.
Qed.

(** C10. The leading repetition is greedy and the text before the marker
    is free: whatever a one-line prefix holds, markers included, the group
    captured is the one after the last place where a marker begins.  The
    dot of the short-link host stands for any character but a line
    terminator, so a text such as "youtuXbe/" followed by 11 characters
    other than the delimiters, which has none of the listed markers,
    still yields those 11 characters. *)
Theorem getYouTubeId_loose_matching :
  (∀ (pre : string) (c : ascii) (t : string) (n : nat) (s' : string),
     single_line pre = true →
     marker_here (String c t) = Some (n, s') →
     marker_free t = true →
     getYouTubeId (pre +:+ String c t)
     = let seg := Text.take_while (λ c, negb (is_delimiter c)) s' in
       if String.length seg =? 11 then Some seg else None)
  ∧ (∀ (x : ascii) (pre seg : string),
       is_line_terminator x = false →
       single_line pre = true →
       segment seg = true →
       marker_free seg = true →
       String.length seg = 11 →
       getYouTubeId (pre +:+ ("youtu" +:+ String x "be/") +:+ seg) = Some seg)
  ∧ (getYouTubeId "see youtuXbe/abcdefghijk" = Some "abcdefghijk"
     ∧ ∀ mk, link_marker mk → includes "see youtuXbe/abcdefghijk" mk = false).
Proof.
  split; [|split; [|split]].
  - intros pre c t n s'. apply getYouTubeId_last_marker.
  - intros x pre seg Hx Hpre Hseg Hfree Hlen.
    pose proof (getYouTubeId_shape pre "" "y" ("outu" +:+ String x "be/")
                  seg "" 9) as H.
    rewrite !append_nil_r, append_nil_l in H.
    change ("youtu" +:+ String x "be/")
      with (String "y" ("outu" +:+ String x "be/")).
    rewrite H; try done.
    + now rewrite Hlen.
    + intros tail.
      destruct x as [[] [] [] [] [] [] [] []];
        first [discriminate Hx | vm_compute; reflexivity].
    + intros tail Htail.
      destruct x as [[] [] [] [] [] [] [] []]; cbn; exact Htail.
  - vm_compute. reflexivity.
  - intros mk Hmk. destruct Hmk as [| |d Hd| | |]; reflexivity.
Qed.

Lemma getYouTubeId_loose_matching_witness :
  getYouTubeId ("https://youtu.be/AAAAAAAAAAA" +:+ String "&" "v=BBBBBBBBBBB")
  = Some "BBBBBBBBBBB"
  ∧ getYouTubeId ("see " +:+ ("youtu" +:+ String "X" "be/") +:+ "abcdefghijk")
    = Some "abcdefghijk".
Proof.
  split.
  - apply (proj1 getYouTubeId_loose_matching
             "https://youtu.be/AAAAAAAAAAA" "&"%char "v=BBBBBBBBBBB" 3 "BBBBBBBBBBB");
      reflexivity.
  - apply (proj1 (proj2 getYouTubeId_loose_matching) "X"%char "see " "abcdefghijk");
      reflexivity.
Defined.

(** ** Arrays *)

Lemma Array_map_Normal {A B : Type} (f : A → nat → completion B) :
  ∀ l index out,
    Array_map f index l = Normal out →
    Forall2 (λ x y, ∃ j, f x j = Normal y) l out.
Proof.
  induction l as [|x l IH]; intros index out H; cbn in H.
  - injection H as <-. constructor.
  - destruct (f x index) as [y|e] eqn:Hy; cbn in H; [|discriminate H].
    destruct (Array_map f (S index) l) as [ys|e] eqn:Hys; cbn in H;
      [|discriminate H].
    injection H as <-. constructor; [now exists index | now apply (IH (S index))].
Qed.

Lemma Array_map_total {A B : Type} (f : A → nat → completion B) :
  ∀ l index,
    Forall (λ x, ∀ j, ∃ y, f x j = Normal y) l →
    ∃ out, Array_map f index l = Normal out.
Proof.
  induction l as [|x l IH]; intros index H; cbn.
  - now exists [].
  - apply Forall_cons in H as [Hx Hl].
    destruct (Hx index) as [y ->]. destruct (IH (S index) Hl) as [ys ->].
    now exists (y :: ys).
Qed.

Lemma Array_filter_Normal {A : Type} (f : A → completion bool) (p : A → bool) :
  ∀ l, Forall (λ x, f x = Normal (p x)) l →
       Array_filter f l = Normal (List.filter p l).
Proof.
  induction l as [|x l IH]; intros H; cbn; [reflexivity|].
  apply Forall_cons in H as [Hx Hl]. rewrite Hx, (IH Hl). cbn.
  now destruct (p x).
Qed.

Lemma Array_filter_Throw {A : Type} (f : A → completion bool) (x : A) :
  ∀ l, x ∈ l → (∃ e, f x = Throw e) → ∃ e, Array_filter f l = Throw e.
Proof.
  induction l as [|y l IH]; intros Hin Hx; [now apply elem_of_nil in Hin|].
  cbn. apply elem_of_cons in Hin as [<-|Hin].
  - destruct Hx as [e ->]. now exists e.
  - destruct (f y) as [b|e]; cbn; [|now exists e].
    destruct (IH Hin Hx) as [e ->]. now exists e.
Qed.

Section SortFacts.
Context {A : Type} (comparefn : A → A → option Z).

Lemma sort_insert_Permutation x l :
  sort_insert comparefn x l ≡ₚ x :: l.
Proof.
  induction l as [|y l IH]; cbn; [reflexivity|].
  destruct (SortCompare comparefn x y <=? 0)%Z; [reflexivity|].
  rewrite IH. apply Permutation_swap.
Qed.

Lemma Array_sort_Permutation l : Array_sort comparefn l ≡ₚ l.
Proof.
  induction l as [|x l IH]; cbn; [reflexivity|].
  now rewrite sort_insert_Permutation, IH.
Qed.

(** For a comparison function that is the difference of a key, taken
    from the second argument to the first, the result is in descending
    order of the key. *)
Variable key : A → Z.
Local Abbreviation before := (λ a b : A, (key b ≤ key a)%Z).

Lemma sort_insert_sorted x l :
  (∀ y, y ∈ l → comparefn x y = Some (key y - key x)%Z) →
  StronglySorted before l →
  StronglySorted before (sort_insert comparefn x l).
Proof.
  intros Hcmp Hs. induction Hs as [|y l Hs IH Hy]; cbn.
  - repeat constructor.
  - unfold SortCompare. rewrite (Hcmp y) by apply list_elem_of_here. cbn.
    destruct (Z.leb_spec (key y - key x) 0) as [Hle|Hgt].
    + constructor; [now constructor|].
      constructor; [lia|].
      eapply Forall_impl; [exact Hy|]. cbn. intros z Hz. lia.
    + constructor.
      * apply IH. intros z Hz. apply Hcmp. now apply list_elem_of_further.
      * rewrite sort_insert_Permutation.
        constructor; [lia | exact Hy].
Qed.

Lemma Array_sort_sorted l :
  (∀ x y, x ∈ l → y ∈ l → comparefn x y = Some (key y - key x)%Z) →
  StronglySorted before (Array_sort comparefn l).
Proof.
  induction l as [|x l IH]; intros Hcmp; cbn; [constructor|].
  apply sort_insert_sorted.
  - intros y Hy. rewrite Array_sort_Permutation in Hy.
    apply Hcmp; [apply list_elem_of_here | now apply list_elem_of_further].
  - apply IH. intros y z Hy Hz.
    apply Hcmp; now apply list_elem_of_further.
Qed.
End SortFacts.

(** ** Dates *)

Module JSDateFacts.
Import JSDate.
Local Open Scope Z_scope.

Lemma iso_date_valid s ymd : iso_date s = Some ymd → valid ymd.
Proof.
  unfold iso_date. intros H.
  apply bind_Some in H as [[y s1] [_ H]].
  apply bind_Some in H as [s2 [_ H]].
  apply bind_Some in H as [[m s3] [_ H]].
  apply bind_Some in H as [s4 [_ H]].
  apply bind_Some in H as [[d s5] [_ H]].
  destruct (_ && _) eqn:E in H; [|discriminate H].
  injection H as <-. cbn.
  repeat (apply andb_true_iff in E as [E ?]). lia.
Qed.

Lemma DayFromYear_succ y :
  DayFromYear (y + 1) = DayFromYear y + (if InLeapYear y then 366 else 365).
Proof.
  unfold DayFromYear, InLeapYear.
  destruct (Z.eqb_spec (y mod 4) 0), (Z.eqb_spec (y mod 100) 0),
    (Z.eqb_spec (y mod 400) 0); cbn [andb orb negb];
    Z.div_mod_to_equations; lia.
Qed.

Lemma DayFromYear_mono y y' : y ≤ y' → DayFromYear y ≤ DayFromYear y'.
Proof.
  intros H. unfold DayFromYear.
  destruct (Z.eq_dec y y') as [->|Hne]; [lia|].
  Z.div_mod_to_equations; lia.
Qed.

(** A valid date lies within its year. *)
Lemma day_within_year y m d :
  valid (y, m, d) →
  DayFromYear y ≤ MakeDay y m d < DayFromYear (y + 1).
Proof.
  intros [Hm Hd]. rewrite DayFromYear_succ. unfold MakeDay.
  generalize (DayFromYear y). intros D.
  assert (Hcases : m = 1 ∨ m = 2 ∨ m = 3 ∨ m = 4 ∨ m = 5 ∨ m = 6 ∨ m = 7
                   ∨ m = 8 ∨ m = 9 ∨ m = 10 ∨ m = 11 ∨ m = 12) by lia.
  destruct (InLeapYear y);
    repeat (destruct Hcases as [->|Hcases]); try subst m;
    unfold DaysBeforeMonth, DaysInMonth in *; simpl in *; lia.
Qed.

Lemma day_within_month l m d m' d' :
  1 ≤ m ≤ 12 → 1 ≤ d ≤ DaysInMonth l m →
  1 ≤ m' ≤ 12 → 1 ≤ d' →
  m < m' →
  DaysBeforeMonth l m + d < DaysBeforeMonth l m' + d'.
Proof.
  intros Hm Hd Hm' Hd' Hlt.
  assert (Hcases : m = 1 ∨ m = 2 ∨ m = 3 ∨ m = 4 ∨ m = 5 ∨ m = 6 ∨ m = 7
                   ∨ m = 8 ∨ m = 9 ∨ m = 10 ∨ m = 11 ∨ m = 12) by lia.
  assert (Hcases' : m' = 1 ∨ m' = 2 ∨ m' = 3 ∨ m' = 4 ∨ m' = 5 ∨ m' = 6
                    ∨ m' = 7 ∨ m' = 8 ∨ m' = 9 ∨ m' = 10 ∨ m' = 11
                    ∨ m' = 12) by lia.
  destruct l;
    repeat (destruct Hcases as [->|Hcases]); try subst m;
    repeat (destruct Hcases' as [->|Hcases']); try subst m';
    unfold DaysBeforeMonth, DaysInMonth in *; simpl in *; lia.
Qed.

Lemma MakeDay_lt a b :
  valid a → valid b → calendar_lt a b →
  let '(y, m, d) := a in let '(y', m', d') := b in
  MakeDay y m d < MakeDay y' m' d'.
Proof.
  destruct a as [[y m] d], b as [[y' m'] d']. intros Ha Hb Hlt.
  cbn in Hlt. destruct Hlt as [Hy|[-> Hlt]].
  - pose proof (day_within_year y m d Ha).
    pose proof (day_within_year y' m' d' Hb).
    pose proof (DayFromYear_mono (y + 1) y'). lia.
  - destruct Ha as [Hm Hd], Hb as [Hm' Hd']. unfold MakeDay.
    destruct Hlt as [Hlt|[-> Hlt]]; [|lia].
    pose proof (day_within_month (InLeapYear y') m d m' d'). lia.
Qed.

(** The time values of calendar dates are ordered as the dates are. *)
Lemma time_of_lt_iff a b :
  valid a → valid b → (time_of a < time_of b ↔ calendar_lt a b).
Proof.
  intros Ha Hb.
  assert (Hab := MakeDay_lt a b Ha Hb).
  assert (Hba := MakeDay_lt b a Hb Ha).
  destruct a as [[y m] d], b as [[y' m'] d'].
  unfold time_of, msPerDay. cbn in *. split; intros H.
  - destruct (Z.lt_trichotomy y y') as [?|[->|?]]; [lia| |lia].
    destruct (Z.lt_trichotomy m m') as [?|[->|?]]; [lia| |lia].
    destruct (Z.lt_trichotomy d d') as [?|[->|?]]; [lia|lia|lia].
  - specialize (Hab H). lia.
Qed.
End JSDateFacts.

(** ** The hook: failure branches *)

(** C2. With an address configured, a response with success status and a
    parser that reports failure, the load ends with the loading flag
    false, the message "Failed to parse data" as error and the record
    collection still empty, whatever the fallback dataset is. *)
Theorem useDevotionals_parse_failure
    (MOCK_DEVOTIONALS : list Devotional) (engine_parse : string → option Z)
    (fetch : string → FetchResult) (Papa_parse : string → PapaResult)
    (url csvText : string) :
  truthy (Some url) = true →
  fetch url = Response true csvText →
  Papa_parse csvText = ParseError →
  let st := useDevotionals MOCK_DEVOTIONALS engine_parse fetch Papa_parse url in
  loading st = false
  ∧ (∃ message, error st = Some message ∧ message ≠ "")
  ∧ devotionals st = [].
Proof.
  intros Hurl Hfetch Hparse. unfold useDevotionals.
  rewrite Hurl, Hfetch, Hparse. cbn.
  split; [reflexivity|]. split; [|reflexivity].
  exists "Failed to parse data". split; [reflexivity | discriminate].
Qed.

Lemma useDevotionals_parse_failure_witness :
  let st := useDevotionals [] (λ _, None) (λ _, Response true "a,b")
              (λ _, ParseError) "https://example.org/feed.csv" in
  loading st = false
  ∧ (∃ message, error st = Some message ∧ message ≠ "")
  ∧ devotionals st = [].
Proof.
  apply (useDevotionals_parse_failure [] (λ _, None) (λ _, Response true "a,b")
           (λ _, ParseError) "https://example.org/feed.csv" "a,b");
    reflexivity.
Defined.

(** C1, as the code has it.  When the retrieval fails (the promise of
    [fetch] rejects, or the response has no success status) the [catch]
    handler stores the fallback dataset and clears the loading flag, and it
    also sets the error to "Failed to load devotionals"; the page then
    shows the error panel and no grid, so the fallback records stay out of
    sight. *)
Theorem useDevotionals_fetch_failure
    (MOCK_DEVOTIONALS : list Devotional) (engine_parse : string → option Z)
    (fetch : string → FetchResult) (Papa_parse : string → PapaResult)
    (url : string) :
  truthy (Some url) = true →
  (fetch url = Rejected ∨ ∃ text, fetch url = Response false text) →
  let st := useDevotionals MOCK_DEVOTIONALS engine_parse fetch Papa_parse url in
  loading st = false
  ∧ devotionals st = MOCK_DEVOTIONALS
  ∧ error st = Some "Failed to load devotionals"
  ∧ ∀ filtered,
      DevotionalsPage st filtered
      = ErrorPanel "Failed to load devotionals"
          :: (if length filtered =? 0 then [NothingFound] else []).
Proof.
  intros Hurl Hfetch. unfold useDevotionals. rewrite Hurl.
  assert (E : match fetch url with
              | Rejected => catch MOCK_DEVOTIONALS (setLoading true initial)
              | Response ok csvText =>
                  if negb ok then catch MOCK_DEVOTIONALS (setLoading true initial)
                  else match Papa_parse csvText with
                       | Complete data =>
                           match complete engine_parse data (setLoading true initial) with
                           | Normal st' => st'
                           | Throw _ => catch MOCK_DEVOTIONALS (setLoading true initial)
                           end
                       | ParseError => parse_error (setLoading true initial)
                       end
              end = catch MOCK_DEVOTIONALS (setLoading true initial)).
  { destruct Hfetch as [->|[text ->]]; reflexivity. }
  cbn [negb]. rewrite E. cbn.
  repeat split; reflexivity.
Qed.

Lemma useDevotionals_fetch_failure_witness :
  let st := useDevotionals [] (λ _, None) (λ _, Rejected)
              (λ _, ParseError) "https://example.org/feed.csv" in
  error st = Some "Failed to load devotionals".
Proof.
  apply (useDevotionals_fetch_failure [] (λ _, None) (λ _, Rejected)
           (λ _, ParseError) "https://example.org/feed.csv");
    [reflexivity | now left].
Defined.

(** ** Row normalisation *)

Lemma normalize_fields (row : Row) (index : nat) (d : Devotional) :
  normalize row index = Normal d →
  id d = "sheet-" +:+ Number_toString index
  ∧ date d = row !! "Date"
  ∧ title d = row !! "Title"
  ∧ speaker d = row !! "Speaker"
  ∧ language d = language_of (row !! "Language")
  ∧ scripture d = row !! "Scripture"
  ∧ videoUrl d = row !! "Video URL".
Proof.
  unfold normalize. destruct (videoId_of row) as [v|e]; cbn; [|discriminate].
  intros H. injection H as <-. cbn. tauto.
Qed.

Lemma lower_char_e (c : ascii) :
  lower_char c = "e"%char ↔ c = "e"%char ∨ c = "E"%char.
Proof.
  split.
  - destruct c as [[] [] [] [] [] [] [] []]; vm_compute; intros H;
      first [discriminate H | now left | now right].
  - intros [->| ->]; reflexivity.
Qed.

Lemma lower_char_n (c : ascii) :
  lower_char c = "n"%char ↔ c = "n"%char ∨ c = "N"%char.
Proof.
  split.
  - destruct c as [[] [] [] [] [] [] [] []]; vm_compute; intros H;
      first [discriminate H | now left | now right].
  - intros [->| ->]; reflexivity.
Qed.

(** The texts that equal "en" when case is ignored. *)
Lemma toLowerCase_en (s : string) :
  toLowerCase s = "en" ↔ s ∈ ["en"; "eN"; "En"; "EN"].
Proof.
  split.
  - destruct s as [|a [|b [|c s]]]; cbn; try discriminate.
    intros H. injection H as Ha Hb.
    apply lower_char_e in Ha as [->| ->]; apply lower_char_n in Hb as [->| ->];
      repeat first [apply list_elem_of_here | apply list_elem_of_further].
  - intros H. repeat (apply elem_of_cons in H as [->|H]); try reflexivity.
    now apply elem_of_nil in H.
Qed.

(** C5. The language of a record is the English value exactly when the
    Language cell, with case ignored, is "en", which is the case for the
    four spellings of it; every other cell, the empty and the missing one
    included, gives the Tagalog value, and no third value exists. *)
Theorem language_of_two_values :
  (∀ v, language_of v = en ↔ ∃ s, v = Some s ∧ toLowerCase s = "en")
  ∧ (∀ v, language_of v = tl ↔ ¬ ∃ s, v = Some s ∧ toLowerCase s = "en")
  ∧ (∀ s, toLowerCase s = "en" ↔ s ∈ ["en"; "eN"; "En"; "EN"])
  ∧ (∀ l : Language, l = en ∨ l = tl)
  ∧ language_of (Some "EN") = en
  ∧ language_of (Some "en") = en
  ∧ language_of (Some "En") = en
  ∧ language_of (Some "tl") = tl
  ∧ language_of (Some "") = tl
  ∧ language_of (Some "xyz") = tl
  ∧ language_of None = tl
  ∧ (∀ row index d,
       normalize row index = Normal d →
       language d = language_of (row !! "Language")).
Proof.
  assert (Hen : ∀ v, language_of v = en ↔ ∃ s, v = Some s ∧ toLowerCase s = "en").
  { intros [s|]; cbn.
    - destruct (String.eqb_spec (toLowerCase s) "en") as [E|E].
      + split; [intros _; now exists s | reflexivity].
      + split; [discriminate|]. intros [s' [[= <-] H]]. contradiction.
    - split; [discriminate|]. intros [s [H _]]. discriminate H. }
  repeat split; try reflexivity; try apply Hen; try apply toLowerCase_en.
  - intros H Hex. apply Hen in Hex. rewrite H in Hex. discriminate Hex.
  - intros H. destruct (language_of v) eqn:E; [reflexivity|].
    exfalso. apply H. now apply Hen.
  - intros v. destruct v; [now right | now left].
  - intros row index d H. now apply normalize_fields in H.
Qed.

Lemma language_of_two_values_witness :
  language
    {| id := "sheet-0"; date := Some "2024-05-01"; title := Some "Faith";
       speaker := None; language := en; scripture := None;
       videoUrl := Some ""; thumbnailUrl := placeholder |}
  = language_of
      (({[ "Date" := "2024-05-01"; "Title" := "Faith"; "Language" := "EN";
           "Video URL" := "" ]} : Row) !! "Language").
Proof.
  apply (proj2 (proj2 (proj2 (proj2 (proj2 (proj2 (proj2 (proj2 (proj2 (proj2
           (proj2 language_of_two_values)))))))))) _ 0).
  vm_compute. reflexivity.
Defined.

Lemma getYouTubeId_length (url id : string) :
  getYouTubeId url = Some id → String.length id = 11.
Proof.
  unfold getYouTubeId. destruct (exec regExp url) as [m|]; [|discriminate].
  destruct (m !! 2) as [g|]; [|discriminate].
  destruct (Nat.eqb_spec (String.length g) 11) as [E|E]; [|discriminate].
  now intros [= <-].
Qed.

(** C8. A row with a video link always normalises to a record, whatever
    the extraction gives.  Its thumbnail address is the fixed pattern
    around the identifier when one is extracted, which then has 11
    characters, and the placeholder address otherwise; the address is a
    function of the identifier alone. *)
Theorem thumbnailUrl_derived (row : Row) (index : nat) (url : string) :
  row !! "Video URL" = Some url →
  (∃ d, normalize row index = Normal d
        ∧ thumbnailUrl d
          = match getYouTubeId url with
            | Some videoId =>
                "https://img.youtube.com/vi/" +:+ videoId +:+ "/maxresdefault.jpg"
            | None => "https://picsum.photos/800/600?grayscale"
            end)
  ∧ (∀ videoId, getYouTubeId url = Some videoId → String.length videoId = 11)
  ∧ (∀ id1 id2, id1 = id2 → getThumbnailUrl id1 = getThumbnailUrl id2).
Proof.
  intros Hurl. split; [|split].
  - unfold normalize, videoId_of. rewrite Hurl.
    destruct (getYouTubeId url) as [videoId|] eqn:E.
    + apply getYouTubeId_length in E.
      destruct videoId as [|c videoId]; [discriminate E|].
      eexists. split; reflexivity.
    + eexists. split; reflexivity.
  - apply getYouTubeId_length.
  - now intros id1 id2 ->.
Qed.

Lemma thumbnailUrl_derived_witness :
  ∃ d, normalize
         ({[ "Date" := "2024-05-01"; "Title" := "Faith";
             "Video URL" := "https://youtu.be/dQw4w9WgXcQ" ]} : Row) 0
       = Normal d
       ∧ thumbnailUrl d
         = match getYouTubeId "https://youtu.be/dQw4w9WgXcQ" with
           | Some videoId =>
               "https://img.youtube.com/vi/" +:+ videoId +:+ "/maxresdefault.jpg"
           | None => "https://picsum.photos/800/600?grayscale"
           end.
Proof.
  apply (thumbnailUrl_derived
           {[ "Date" := "2024-05-01"; "Title" := "Faith";
              "Video URL" := "https://youtu.be/dQw4w9WgXcQ" ]} 0
           "https://youtu.be/dQw4w9WgXcQ").
  vm_compute. reflexivity.
Defined.

Lemma truthy_Some (v : option string) :
  truthy v = true ↔ ∃ s, v = Some s ∧ s ≠ "".
Proof.
  destruct v as [s|]; cbn.
  - destruct (String.eqb_spec s "") as [->|Hne]; cbn.
    + split; [discriminate|]. now intros [s [[= <-] H]].
    + split; [intros _; now exists s | reflexivity].
  - split; [discriminate|]. now intros [s [H _]].
Qed.

(** The rows that the validation drops. *)
Lemma row_valid_false (row : Row) :
  row_valid row = false ↔
  row !! "Date" = None ∨ row !! "Date" = Some ""
  ∨ row !! "Title" = None ∨ row !! "Title" = Some "".
Proof.
  unfold row_valid.
  destruct (row !! "Date") as [[|c s]|], (row !! "Title") as [[|c' s']|];
    cbn; split; intros H; try reflexivity; try discriminate H; try tauto;
    destruct H as [H|[H|[H|H]]]; discriminate H.
Qed.

Lemma Forall2_elem_of_r {A B : Type} (R : A → B → Prop)
    (l : list A) (k : list B) (y : B) :
  Forall2 R l k → y ∈ k → ∃ x, x ∈ l ∧ R x y.
Proof.
  intros H. induction H as [|x z l k Hxz H IH]; intros Hy.
  - now apply elem_of_nil in Hy.
  - apply elem_of_cons in Hy as [->|Hy].
    + exists x. split; [apply list_elem_of_here | exact Hxz].
    + destruct (IH Hy) as [x' [Hx' HR]]. exists x'.
      split; [now apply list_elem_of_further | exact HR].
Qed.

Lemma elem_of_filter_valid (row : Row) (data : list Row) :
  row ∈ List.filter row_valid data ↔ row ∈ data ∧ row_valid row = true.
Proof. rewrite !list_elem_of_In. apply List.filter_In. Qed.

(** Every surviving row that has a video link normalises. *)
Lemma parsedData_total (data : list Row) :
  (∀ row, row ∈ data → row_valid row = true → is_Some (row !! "Video URL")) →
  ∃ parsed, parsedData data = Normal parsed.
Proof.
  intros Hurl. unfold parsedData. apply Array_map_total.
  apply Forall_forall. intros row Hrow j.
  apply elem_of_filter_valid in Hrow as [Hin Hvalid].
  destruct (Hurl row Hin Hvalid) as [url Hrow].
  unfold normalize, videoId_of. rewrite Hrow. cbn. eauto.
Qed.

Lemma parsedData_drop (l1 l2 : list Row) (row : Row) :
  row_valid row = false →
  parsedData (l1 ++ row :: l2) = parsedData (l1 ++ l2).
Proof.
  intros H. unfold parsedData. rewrite !List.filter_app. cbn. now rewrite H.
Qed.

(** C4. After a load whose rows were parsed, every record of the
    collection has a date and a title that are not empty, and comes from a
    row that has both; a row whose Date or Title is missing or empty gives
    no record, and the load is the same with and without it: the loading
    flag is false and no error is set. *)
Theorem loaded_records_have_date_and_title
    (MOCK_DEVOTIONALS : list Devotional) (engine_parse : string → option Z)
    (fetch : string → FetchResult) (Papa_parse : string → PapaResult)
    (url csvText : string) (data : list Row) :
  truthy (Some url) = true →
  fetch url = Response true csvText →
  Papa_parse csvText = Complete data →
  (∀ row, row ∈ data → row_valid row = true → is_Some (row !! "Video URL")) →
  let st := useDevotionals MOCK_DEVOTIONALS engine_parse fetch Papa_parse url in
  loading st = false
  ∧ error st = None
  ∧ (∀ d, d ∈ devotionals st →
       (∃ t, title d = Some t ∧ t ≠ "")
       ∧ (∃ dt, date d = Some dt ∧ dt ≠ "")
       ∧ ∃ row, row ∈ data ∧ row_valid row = true
                ∧ date d = row !! "Date" ∧ title d = row !! "Title")
  ∧ (∃ parsed, Array_map normalize 0 (List.filter row_valid data) = Normal parsed
               ∧ devotionals st ≡ₚ parsed)
  ∧ (∀ row, row_valid row = false ↔
            row !! "Date" = None ∨ row !! "Date" = Some ""
            ∨ row !! "Title" = None ∨ row !! "Title" = Some "")
  ∧ (∀ l1 row l2 st0,
       data = l1 ++ row :: l2 → row_valid row = false →
       complete engine_parse data st0 = complete engine_parse (l1 ++ l2) st0).
Proof.
  intros Hurl Hfetch Hparse Hvideo.
  destruct (parsedData_total data Hvideo) as [parsed Hparsed].
  assert (Hst : useDevotionals MOCK_DEVOTIONALS engine_parse fetch Papa_parse url
                = setLoading false
                    (setDevotionals (sortedData engine_parse parsed)
                       (setLoading true initial))).
  { unfold useDevotionals. rewrite Hurl, Hfetch, Hparse. cbn [negb].
    unfold complete. now rewrite Hparsed. }
  cbn zeta. rewrite Hst.
  cbn [loading error devotionals setLoading setDevotionals initial].
  split; [reflexivity|]. split; [reflexivity|].
  split; [|split; [|split]].
  - intros d Hd. unfold sortedData in Hd.
    rewrite Array_sort_Permutation in Hd.
    destruct (Forall2_elem_of_r _ _ _ d (Array_map_Normal _ _ _ _ Hparsed) Hd)
      as [row [Hrow [j Hnorm]]].
    apply elem_of_filter_valid in Hrow as [Hin Hvalid].
    apply normalize_fields in Hnorm as (_ & Hdate & Htitle & _).
    pose proof Hvalid as Hv. unfold row_valid in Hv.
    apply andb_true_iff in Hv as [Hd1 Ht1].
    rewrite <- Hdate in Hd1. rewrite <- Htitle in Ht1.
    apply truthy_Some in Hd1, Ht1.
    split; [exact Ht1|]. split; [exact Hd1|].
    exists row. auto.
  - exists parsed. split; [exact Hparsed | apply Array_sort_Permutation].
  - apply row_valid_false.
  - intros l1 row l2 st0 -> Hrow. unfold complete.
    now rewrite (parsedData_drop l1 l2 row Hrow).
Qed.

Lemma loaded_records_have_date_and_title_witness :
  let data : list Row :=
    [ {[ "Date" := "2024-05-01"; "Title" := "Faith"; "Video URL" := "" ]};
      {[ "Date" := "2024-05-02"; "Speaker" := "Juan" ]};
      {[ "Date" := ""; "Title" := "Hope"; "Video URL" := "" ]} ] in
  let st := useDevotionals [] (λ _, None) (λ _, Response true "csv")
              (λ _, Complete data) "https://example.org/feed.csv" in
  loading st = false ∧ error st = None.
Proof.
  intros data st.
  assert (H := loaded_records_have_date_and_title [] (λ _, None)
                 (λ _, Response true "csv") (λ _, Complete data)
                 "https://example.org/feed.csv" "csv" data).
  destruct H as (H1 & H2 & _); try reflexivity.
  - intros row Hrow Hvalid.
    repeat (apply elem_of_cons in Hrow as [->|Hrow]);
      [eexists; reflexivity | discriminate Hvalid | discriminate Hvalid
      | now apply elem_of_nil in Hrow].
  - split; [exact H1 | exact H2].
Defined.

(** ** The newest-first sort *)

Lemma StronglySorted_refine {A : Type} (P : A → Prop) (R R' : A → A → Prop)
    (l : list A) :
  (∀ a b, P a → P b → R a b → R' a b) →
  Forall P l → StronglySorted R l → StronglySorted R' l.
Proof.
  intros HR HP Hs. induction Hs as [|x l Hs IH Hx]; [constructor|].
  apply Forall_cons in HP as [Px Pl]. constructor; [now apply IH|].
  rewrite Forall_forall in *. intros y Hy. apply HR; auto.
Qed.



(** ** The list view *)

Lemma matches_Normal filter searchTerm d :
  is_Some (title d) → is_Some (speaker d) →
  matches filter searchTerm d = Normal (matches_typed filter searchTerm d).
Proof.
  intros [t Ht] [s Hs]. unfold matches, matches_typed. rewrite Ht, Hs. cbn.
  destruct (includes (toLowerCase t) (toLowerCase searchTerm)); reflexivity.
Qed.

Lemma includes_empty (s : string) : includes s "" = true.
Proof. destruct s; reflexivity. Qed.

Lemma toLowerCase_empty (s : string) : toLowerCase s = "" → s = "".
Proof. now destruct s. Qed.

Lemma matches_typed_spec filter searchTerm d :
  is_Some (title d) → is_Some (speaker d) →
  matches_typed filter searchTerm d = true
  ↔ passes_language filter d ∧ passes_search searchTerm d.
Proof.
  intros [t Ht] [s Hs]. unfold matches_typed, passes_language, passes_search.
  rewrite Ht, Hs. cbn [default].
  rewrite andb_true_iff, orb_true_iff, !includes_spec.
  assert (HL : match filter with
               | all => true
               | only l => bool_decide (language d = l)
               end = true
               ↔ filter = all ∨ filter = only (language d)).
  { destruct filter as [|l]; [intuition|].
    rewrite bool_decide_eq_true. split.
    - intros <-. now right.
    - intros [H|H]; [discriminate H | now injection H]. }
  rewrite HL. unfold occurs_ignoring_case. split.
  - intros [Hl [H|H]]; (split; [exact Hl|]);
      [right; left; now exists t | right; right; now exists s].
  - intros [Hl [->|[[t' [[= <-] H]]|[s' [[= <-] H]]]]]; (split; [exact Hl|]);
      [|now left|now right].
    left. now exists "", (toLowerCase t).
Qed.

Lemma filter_sublist {A : Type} (p : A → bool) (l : list A) :
  List.filter p l `sublist_of` l.
Proof.
  induction l as [|x l IH]; cbn; [constructor|].
  destruct (p x); [now apply sublist_skip | now apply sublist_cons].
Qed.

(** C7. For a collection of records that have a title and a speaker, a
    language selection and a search term, a record is in the output exactly
    when it is in the input, no language is selected or its language is the
    selected one, and the term is empty or occurs, with case ignored, in
    its title or in its speaker; the output keeps the records in the order
    of the input. *)
Theorem filteredDevotionals_spec
    (devotionals : list Devotional) (filter : Filter) (searchTerm : string) :
  Forall (λ d, is_Some (title d) ∧ is_Some (speaker d)) devotionals →
  ∃ out,
    filteredDevotionals devotionals filter searchTerm = Normal out
    ∧ (∀ d, d ∈ out ↔
            d ∈ devotionals
            ∧ passes_language filter d ∧ passes_search searchTerm d)
    ∧ out `sublist_of` devotionals.
Proof.
  intros Htyped.
  exists (List.filter (matches_typed filter searchTerm) devotionals).
  split; [|split].
  - apply Array_filter_Normal.
    eapply Forall_impl; [exact Htyped|].
    intros d [Ht Hs]. now apply matches_Normal.
  - intros d. rewrite !list_elem_of_In, List.filter_In, <- list_elem_of_In.
    split.
    + intros [Hin Hm]. split; [exact Hin|].
      rewrite Forall_forall in Htyped. destruct (Htyped d Hin) as [Ht Hs].
      now apply matches_typed_spec.
    + intros [Hin Hp]. split; [exact Hin|].
      rewrite Forall_forall in Htyped. destruct (Htyped d Hin) as [Ht Hs].
      now apply matches_typed_spec.
  - apply filter_sublist.
Qed.

Lemma filteredDevotionals_spec_witness :
  ∃ out,
    filteredDevotionals [faith; pananampalataya] (only en) "FAITH" = Normal out
    ∧ (∀ d, d ∈ out ↔
            d ∈ [faith; pananampalataya]
            ∧ passes_language (only en) d ∧ passes_search "FAITH" d)
    ∧ out `sublist_of` [faith; pananampalataya].
Proof.
  apply (filteredDevotionals_spec [faith; pananampalataya] (only en) "FAITH").
  repeat constructor; eexists; reflexivity.
Defined.

Example filter_en_keeps_first :
  filteredDevotionals [faith; pananampalataya] (only en) "" = Normal [faith].
Proof. vm_compute. reflexivity. Qed.

Example filter_all_keeps_both :
  filteredDevotionals [faith; pananampalataya] all ""
  = Normal [faith; pananampalataya].
Proof. vm_compute. reflexivity. Qed.

Example search_faith_any_case :
  filteredDevotionals [faith; pananampalataya] all "fAiTh" = Normal [faith].
Proof. vm_compute. reflexivity. Qed.

Lemma length_toLowerCase (s : string) :
  String.length (toLowerCase s) = String.length s.
Proof. induction s as [|c s IH]; cbn; [reflexivity | now rewrite IH]. Qed.

Lemma includes_length (s x : string) :
  includes s x = true → String.length x ≤ String.length s.
Proof.
  intros H. apply includes_spec in H as [pre [post ->]].
  rewrite !length_append. lia.
Qed.

(** A term longer than the title does not occur in it. *)
Lemma includes_longer (t : string) :
  includes (toLowerCase t) (toLowerCase (t +:+ "x")) = false.
Proof.
  destruct (includes _ _) eqn:E; [|reflexivity].
  apply includes_length in E.
  rewrite !length_toLowerCase, length_append in E. cbn in E. lia.
Qed.

Lemma matches_Throw filter searchTerm d e :
  matches filter searchTerm d = Throw e → e = TypeError.
Proof.
  unfold matches. destruct (title d) as [t|]; cbn; [|now intros [= <-]].
  destruct (includes (toLowerCase t) (toLowerCase searchTerm)); cbn;
    [discriminate|].
  destruct (speaker d) as [s|]; cbn; [discriminate | now intros [= <-]].
Qed.

Lemma Array_filter_Throw_inv {A : Type} (f : A → completion bool) :
  ∀ l e, Array_filter f l = Throw e → ∃ x, x ∈ l ∧ f x = Throw e.
Proof.
  induction l as [|y l IH]; intros e H; cbn in H; [discriminate H|].
  destruct (f y) as [b|e'] eqn:Hy; cbn in H.
  - destruct (Array_filter f l) as [ys|e'']; cbn in H; [discriminate H|].
    injection H as <-. destruct (IH e'' eq_refl) as [x [Hx Hfx]].
    exists x. split; [now apply list_elem_of_further | exact Hfx].
  - injection H as <-. exists y. split; [apply list_elem_of_here | exact Hy].
Qed.

(** C9. A row with a date, a title and a video link but no Speaker field
    normalises to a record whose speaker is [undefined], not the empty
    string.  On that record the filter callback calls [toLowerCase] on
    [undefined] and throws whenever the search term does not occur in the
    title, and such a term exists; the filter of any collection that holds
    the record then ends in a [TypeError].  The record does reach the
    loaded collection. *)
Theorem missing_speaker_reaches_error (row : Row) (index : nat) (url : string) :
  row_valid row = true →
  row !! "Speaker" = None →
  row !! "Video URL" = Some url →
  ∃ d t,
    normalize row index = Normal d
    ∧ title d = Some t
    ∧ speaker d = None
    ∧ speaker d ≠ Some ""
    ∧ (∀ filter searchTerm,
         includes (toLowerCase t) (toLowerCase searchTerm) = false →
         matches filter searchTerm d = Throw TypeError
         ∧ ∀ ds, d ∈ ds →
                 filteredDevotionals ds filter searchTerm = Throw TypeError)
    ∧ (∃ searchTerm,
         includes (toLowerCase t) (toLowerCase searchTerm) = false)
    ∧ (∀ MOCK_DEVOTIONALS engine_parse csvText,
         ∃ d0, normalize row 0 = Normal d0
               ∧ speaker d0 = None
               ∧ useDevotionals MOCK_DEVOTIONALS engine_parse
                   (λ _, Response true csvText) (λ _, Complete [row])
                   "https://example.org/feed.csv"
                 = {| devotionals := [d0]; loading := false; error := None |}).
Proof.
  intros Hvalid Hspeaker Hurl.
  assert (Hnorm : ∀ j, ∃ d, normalize row j = Normal d).
  { intros j. unfold normalize, videoId_of. rewrite Hurl. cbn. eauto. }
  destruct (Hnorm index) as [d Hd].
  pose proof (normalize_fields row index d Hd)
    as (_ & _ & Htitle & Hsp & _).
  unfold row_valid in Hvalid. apply andb_true_iff in Hvalid as [Hdate Ht].
  pose proof Ht as Ht'. apply truthy_Some in Ht' as [t [Hrow_t _]].
  exists d, t. rewrite Hsp, Hspeaker, Htitle, Hrow_t.
  split; [exact Hd|]. split; [reflexivity|]. split; [reflexivity|].
  split; [discriminate|]. split; [|split].
  - intros filter searchTerm Hterm.
    assert (Hm : matches filter searchTerm d = Throw TypeError).
    { unfold matches. rewrite Htitle, Hrow_t. cbn. rewrite Hterm. cbn.
      now rewrite Hsp, Hspeaker. }
    split; [exact Hm|]. intros ds Hin.
    destruct (Array_filter_Throw (matches filter searchTerm) d ds Hin)
      as [e He]; [now exists TypeError|].
    unfold filteredDevotionals. rewrite He. f_equal.
    apply Array_filter_Throw_inv in He as [x [_ Hx]].
    now apply matches_Throw in Hx.
  - exists (t +:+ "x"). apply includes_longer.
  - intros MOCK_DEVOTIONALS engine_parse csvText.
    destruct (Hnorm 0) as [d0 Hd0]. exists d0.
    pose proof (normalize_fields row 0 d0 Hd0) as (_ & _ & _ & Hsp0 & _).
    split; [exact Hd0|]. split; [now rewrite Hsp0|].
    unfold useDevotionals, complete, parsedData. cbn [truthy String.eqb negb].
    cbn [List.filter]. unfold row_valid. rewrite Hdate, Ht. cbn [andb].
    cbn [Array_map]. rewrite Hd0. reflexivity.
Qed.

Lemma missing_speaker_reaches_error_witness :
  ∃ d t,
    normalize
      ({[ "Date" := "2024-05-01"; "Title" := "Faith";
          "Video URL" := "https://youtu.be/dQw4w9WgXcQ" ]} : Row) 0
    = Normal d
    ∧ title d = Some t
    ∧ speaker d = None.
Proof.
  destruct (missing_speaker_reaches_error
              {[ "Date" := "2024-05-01"; "Title" := "Faith";
                 "Video URL" := "https://youtu.be/dQw4w9WgXcQ" ]} 0
              "https://youtu.be/dQw4w9WgXcQ")
    as (d & t & H1 & H2 & H3 & _); [vm_compute; reflexivity..|].
  now exists d, t.
Defined.

Example missing_speaker_filter_throws :
  ∃ d, normalize
         ({[ "Date" := "2024-05-01"; "Title" := "Faith";
             "Video URL" := "https://youtu.be/dQw4w9WgXcQ" ]} : Row) 0
       = Normal d
       ∧ filteredDevotionals [d] all "hope" = Throw TypeError.
Proof. eexists. split; vm_compute; reflexivity. Qed.

(** * Further properties *)

(** ** What a match takes from the input *)

Module RegExpInversion.

Lemma forallb_append (p : ascii → bool) (a b : string) :
  Text.forallb p (a +:+ b) = Text.forallb p a && Text.forallb p b.
Proof.
  induction a as [|c a IH]; text_simpl; [reflexivity|].
  now rewrite IH, andb_assoc.
Qed.

(** A successful repetition took a prefix of matching characters and
    handed the rest to its continuation. *)
Lemma star_Some_inv {R : Type} a : ∀ s i caps (k : @cont R) x,
  star a i s caps k = Some x →
  ∃ pre s', s = pre +:+ s'
            ∧ Text.forallb (atom_ok a) pre = true
            ∧ k (i + String.length pre) s' caps = Some x.
Proof.
  induction s as [|c s IH]; intros i caps k x H; simpl in H.
  - exists "", "". rewrite Nat.add_0_r. auto.
  - destruct (atom_ok a c) eqn:Hc.
    + destruct (star a (S i) s caps k) as [y|] eqn:Hs.
      * injection H as <-. destruct (IH _ _ _ _ Hs) as (pre & s' & -> & Hp & Hk).
        exists (String c pre), s'. simpl. rewrite Hc, Hp.
        replace (i + S (String.length pre)) with (S i + String.length pre) by lia.
        auto.
      * exists "", (String c s). rewrite Nat.add_0_r. auto.
    + exists "", (String c s). rewrite Nat.add_0_r. auto.
Qed.

(** A successful run took a prefix of the input and handed the rest to its
    continuation. *)
Lemma run_Some_inv {R : Type} r : ∀ s i caps (k : @cont R) x,
  run r i s caps k = Some x →
  ∃ m s' caps', s = m +:+ s' ∧ k (i + String.length m) s' caps' = Some x.
Proof.
  induction r as [| |a|a|r1 IH1 r2 IH2|r1 IH1 r2 IH2|n r IH];
    intros s i caps k x H; simpl in H.
  - exists "", s, caps. rewrite Nat.add_0_r. auto.
  - destruct (i =? 0); [|discriminate H].
    exists "", s, caps. rewrite Nat.add_0_r. auto.
  - destruct s as [|c s]; [discriminate H|].
    destruct (atom_ok a c); [|discriminate H].
    exists (String c ""), s, caps. simpl. now rewrite Nat.add_1_r.
  - destruct (star_Some_inv _ _ _ _ _ _ H) as (pre & s' & -> & _ & Hk).
    now exists pre, s', caps.
  - destruct (IH1 _ _ _ _ _ H) as (m1 & s1 & c1 & -> & H1).
    destruct (IH2 _ _ _ _ _ H1) as (m2 & s2 & c2 & -> & H2).
    exists (m1 +:+ m2), s2, c2. rewrite append_assoc, length_append.
    now rewrite Nat.add_assoc.
  - destruct (run r1 i s caps k) as [y|] eqn:E1.
    + injection H as <-. now apply IH1 in E1.
    + now apply IH2 in H.
  - destruct (IH _ _ _ _ _ H) as (m & s' & c' & -> & Hk). eauto.
Qed.

(** A pattern that must take a character of [p] fails on a text that has
    none; a pattern that need not fails there when its continuation does. *)
Lemma star_miss {R : Type} (p : ascii → bool) a :
  ∀ s i caps (k : @cont R),
    Text.forallb (λ c, negb (p c)) s = true →
    (∀ i' s' caps',
       Text.forallb (λ c, negb (p c)) s' = true → k i' s' caps' = None) →
    star a i s caps k = None.
Proof.
  induction s as [|c s IH]; intros i caps k Hs Hk; simpl.
  - now apply Hk.
  - pose proof Hs as Hs'. simpl in Hs'. apply andb_true_iff in Hs' as [_ Hs'].
    rewrite (IH (S i) caps k Hs' Hk), (Hk i (String c s) caps Hs).
    now destruct (atom_ok a c).
Qed.

Lemma run_miss {R : Type} (p : ascii → bool) r :
  ∀ s i caps (k : @cont R),
    Text.forallb (λ c, negb (p c)) s = true →
    must_hit p r = true
    ∨ (∀ i' s' caps',
         Text.forallb (λ c, negb (p c)) s' = true → k i' s' caps' = None) →
    run r i s caps k = None.
Proof.
  induction r as [| |a|a|r1 IH1 r2 IH2|r1 IH1 r2 IH2|n r IH];
    intros s i caps k Hs Hor; simpl.
  - destruct Hor as [H|Hk]; [discriminate H | now apply Hk].
  - destruct Hor as [H|Hk]; [discriminate H|].
    destruct (i =? 0); [now apply Hk | reflexivity].
  - destruct s as [|c s]; [reflexivity|].
    simpl in Hs. apply andb_true_iff in Hs as [Hc Hs].
    destruct (atom_ok a c) eqn:Hok; [|reflexivity].
    destruct Hor as [H|Hk]; [|now apply Hk].
    destruct a as [d| | |cs]; try discriminate H. simpl in H, Hok.
    apply Ascii.eqb_eq in Hok as ->. now rewrite H in Hc.
  - destruct Hor as [H|Hk]; [discriminate H|]. now apply (star_miss p).
  - destruct Hor as [H|Hk].
    + simpl in H. apply orb_true_iff in H as [H|H].
      * apply IH1; [exact Hs | now left].
      * apply IH1; [exact Hs|]. right. intros i' s' caps' Hs'.
        apply IH2; [exact Hs' | now left].
    + apply IH1; [exact Hs|]. right. intros i' s' caps' Hs'.
      apply IH2; [exact Hs' | now right].
  - assert (H1 : run r1 i s caps k = None).
    { apply IH1; [exact Hs|]. destruct Hor as [H|Hk]; [|now right].
      simpl in H. apply andb_true_iff in H as [H _]. now left. }
    rewrite H1. apply IH2; [exact Hs|]. destruct Hor as [H|Hk]; [|now right].
    simpl in H. apply andb_true_iff in H as [_ H]. now left.
  - apply IH; [exact Hs|]. destruct Hor as [H|Hk]; [now left|].
    right. intros i' s' caps' Hs'. now apply Hk.
Qed.

End RegExpInversion.

(** ** [getYouTubeId] on every input *)

Lemma forallb_take_while (p : ascii → bool) (s : string) :
  Text.forallb p (Text.take_while p s) = true.
Proof.
  induction s as [|c s IH]; simpl; [reflexivity|].
  destruct (p c) eqn:Hc; simpl; [now rewrite Hc | reflexivity].
Qed.

Lemma drop_while_head (p : ascii → bool) (s : string) :
  match Text.drop_while p s with
  | EmptyString => true
  | String c _ => negb (p c)
  end = true.
Proof.
  induction s as [|c s IH]; simpl; [reflexivity|].
  destruct (p c) eqn:Hc; [exact IH | simpl; now rewrite Hc].
Qed.

Lemma exec_from_regExp_later (s : string) (i : nat) :
  exec_from regExp (S i) s = None.
Proof.
  revert i. induction s as [|c s IH]; intros i; cbn; [reflexivity | apply IH].
Qed.

Lemma exec_regExp_inv (url : string) (m : captures) :
  exec regExp url = Some m → run regExp 0 url ∅ accept = Some m.
Proof.
  unfold exec. destruct url as [|c url]; cbn [exec_from];
    destruct (run regExp 0 _ ∅ accept) as [m'|]; try easy.
  now rewrite exec_from_regExp_later.
Qed.

(** The match of [regExp], whenever there is one: a one-line prefix, a
    marker, and the longest run without delimiter as second group. *)
Lemma exec_regExp_Some_inv (url : string) (m : captures) :
  exec regExp url = Some m →
  ∃ pre mk tail,
    url = pre +:+ mk +:+ tail
    ∧ single_line pre = true
    ∧ marker_here (mk +:+ tail) = Some (String.length mk, tail)
    ∧ m !! 2 = Some (Text.take_while (λ c, negb (is_delimiter c)) tail).
Proof.
  intros H. apply exec_regExp_inv in H.
  cbn [run regExp Nat.eqb] in H.
  apply RegExpInversion.star_Some_inv in H as (pre & s1 & -> & Hpre & H).
  change (run (Seq (Group 1 markers)
                 (Seq (Group 2 (Star (NoneOf "#&?"))) (Star Dot)))
            (0 + String.length pre) s1 ∅ accept = Some m) in H.
  rewrite run_after_prefix in H.
  destruct (marker_here s1) as [[n s']|] eqn:Hhere; [|discriminate H].
  cbn in H. injection H as <-.
  pose proof Hhere as Hinv. unfold marker_here in Hinv.
  apply RegExpInversion.run_Some_inv in Hinv as (mk & s'' & _ & -> & Hk).
  injection Hk as <- <-.
  exists pre, mk, s''. split; [reflexivity|]. split; [exact Hpre|].
  split; [exact Hhere|]. now rewrite lookup_insert_eq.
Qed.

(** X1. Whenever [getYouTubeId] returns an identifier, the link is a
    one-line prefix, a text that the marker alternation matches, the
    identifier, and a rest that is empty or begins with [#], [&] or [?];
    the identifier has 11 characters, none of them a delimiter, and it
    occurs in the link. *)
Theorem getYouTubeId_Some_inv (url id : string) :
  getYouTubeId url = Some id →
  (∃ pre mk rest,
     url = pre +:+ mk +:+ id +:+ rest
     ∧ single_line pre = true
     ∧ marker_here (mk +:+ id +:+ rest) = Some (String.length mk, id +:+ rest)
     ∧ ends_segment rest = true)
  ∧ String.length id = 11
  ∧ segment id = true
  ∧ includes url id = true.
Proof.
  intros H. pose proof (getYouTubeId_length url id H) as Hlen.
  unfold getYouTubeId in H.
  destruct (exec regExp url) as [m|] eqn:E; [|discriminate H].
  apply exec_regExp_Some_inv in E as (pre & mk & tail & -> & Hpre & Hhere & Hm).
  rewrite Hm in H.
  destruct (_ =? 11); [|discriminate H]. injection H as <-.
  set (nd := λ c, negb (is_delimiter c)) in *.
  assert (Htail : tail = Text.take_while nd tail +:+ Text.drop_while nd tail)
    by (symmetry; apply take_drop_while).
  split; [|split; [exact Hlen|split]].
  - exists pre, mk, (Text.drop_while nd tail). rewrite <- Htail.
    repeat split; try assumption.
    pose proof (drop_while_head nd tail) as Hd.
    destruct (Text.drop_while nd tail) as [|c rest]; [reflexivity|].
    cbn. unfold nd in Hd. now apply negb_true_iff, negb_false_iff in Hd.
  - apply forallb_take_while.
  - apply includes_spec. exists (pre +:+ mk), (Text.drop_while nd tail).
    rewrite append_assoc. f_equal. f_equal. exact Htail.
Qed.

Lemma getYouTubeId_Some_inv_witness :
  String.length "dQw4w9WgXcQ" = 11
  ∧ segment "dQw4w9WgXcQ" = true
  ∧ includes "https://youtu.be/dQw4w9WgXcQ?t=42" "dQw4w9WgXcQ" = true.
Proof.
  apply (getYouTubeId_Some_inv "https://youtu.be/dQw4w9WgXcQ?t=42" "dQw4w9WgXcQ").
  vm_compute. reflexivity.
Defined.

Lemma separator_free_marker_here (s : string) :
  separator_free s = true → marker_here s = None.
Proof.
  intros H. unfold marker_here.
  apply (RegExpInversion.run_miss is_separator); [exact H | now left].
Qed.

Lemma separator_free_marker_free (s : string) :
  separator_free s = true → marker_free s = true.
Proof.
  induction s as [|c s IH]; intros H; cbn [marker_free];
    rewrite (separator_free_marker_here _ H); [reflexivity|].
  simpl in H. apply andb_true_iff in H as [_ H]. now rewrite IH.
Qed.

(** X2. A text without slash and without equals sign holds no marker:
    [getYouTubeId] returns [null] on it, and a row whose video cell is such
    a text (a bare identifier, or the empty cell) gets the placeholder
    thumbnail. *)
Theorem getYouTubeId_without_separator (url : string) :
  separator_free url = true →
  getYouTubeId url = None
  ∧ ∀ (row : Row) (index : nat),
      row !! "Video URL" = Some url →
      ∃ d, normalize row index = Normal d ∧ thumbnailUrl d = placeholder.
Proof.
  intros Hfree.
  assert (Hnone : getYouTubeId url = None).
  { unfold getYouTubeId. destruct (exec regExp url) as [m|] eqn:E; [|reflexivity].
    apply exec_regExp_Some_inv in E as (pre & mk & tail & -> & _ & Hhere & _).
    unfold separator_free in Hfree.
    rewrite RegExpInversion.forallb_append in Hfree.
    apply andb_true_iff in Hfree as [_ Hfree].
    rewrite (separator_free_marker_here _ Hfree) in Hhere. discriminate Hhere. }
  split; [exact Hnone|]. intros row index Hrow.
  unfold normalize, videoId_of. rewrite Hrow, Hnone.
  eexists. split; reflexivity.
Qed.

Lemma getYouTubeId_without_separator_witness :
  getYouTubeId "dQw4w9WgXcQ" = None.
Proof.
  apply (getYouTubeId_without_separator "dQw4w9WgXcQ"). reflexivity.
Defined.

(** X3. Round trip: for each listed marker after a one-line prefix, a link
    that ends with an identifier of 11 characters other than [/], [=],
    [#], [&] and [?] gives back that identifier, and the row that holds the
    link gets the thumbnail address of the identifier. *)
Theorem getYouTubeId_round_trip (pre mk id : string) :
  link_marker mk →
  single_line pre = true →
  String.length id = 11 →
  separator_free id = true →
  segment id = true →
  getYouTubeId (pre +:+ mk +:+ id) = Some id
  ∧ ∀ (row : Row) (index : nat),
      row !! "Video URL" = Some (pre +:+ mk +:+ id) →
      ∃ d, normalize row index = Normal d
           ∧ thumbnailUrl d = getThumbnailUrl id.
Proof.
  intros Hmk Hpre Hlen Hsep Hseg.
  assert (Hfree : marker_free (id +:+ "") = true).
  { rewrite append_nil_r. now apply separator_free_marker_free. }
  assert (Hshape : ∀ skip c mk' n,
            single_line skip = true →
            (∀ tail, marker_here (String c (mk' +:+ tail)) = Some (n, tail)) →
            (∀ tail, marker_free tail = true → marker_free (mk' +:+ tail) = true) →
            getYouTubeId (pre +:+ (skip +:+ String c mk') +:+ id) = Some id).
  { intros skip c mk' n Hskip Hhere Hin.
    pose proof (getYouTubeId_shape pre skip c mk' id "" n
                  Hpre Hskip Hhere Hin Hseg eq_refl Hfree) as H.
    rewrite append_nil_r, Hlen in H. exact H. }
  assert (Hid : getYouTubeId (pre +:+ mk +:+ id) = Some id).
  { destruct Hmk as [| |d Hd| | |].
    - apply (Hshape "" "y"%char "outu.be/" 9); shape_tac.
    - apply (Hshape "/" "v"%char "/" 2); shape_tac.
    - apply is_digit_cases in Hd.
      repeat (apply elem_of_cons in Hd as [->|Hd]);
        [..|now apply elem_of_nil in Hd];
        (apply (Hshape "/" "u"%char _ 4); shape_tac).
    - apply (Hshape "/" "e"%char "mbed/" 6); shape_tac.
    - apply (Hshape "" "w"%char "atch?v=" 8); shape_tac.
    - apply (Hshape "" "&"%char "v=" 3); shape_tac. }
  split; [exact Hid|]. intros row index Hrow.
  unfold normalize, videoId_of. rewrite Hrow, Hid.
  destruct id as [|c id]; [discriminate Hlen|].
  eexists. split; reflexivity.
Qed.

Lemma getYouTubeId_round_trip_witness :
  getYouTubeId ("https://www.youtube.com" +:+ "/embed/" +:+ "dQw4w9WgXcQ")
  = Some "dQw4w9WgXcQ".
Proof.
  apply (getYouTubeId_round_trip "https://www.youtube.com" "/embed/" "dQw4w9WgXcQ");
    [constructor | reflexivity..].
Defined.

Lemma first_line_marker_free_prefix (pre s : string) :
  first_line_marker_free (pre +:+ s) = true →
  single_line pre = true →
  marker_here s = None.
Proof.
  induction pre as [|c pre IH]; rewrite ?append_nil_l, ?append_cons;
    intros Hfree Hpre.
  - destruct s; cbn [first_line_marker_free] in Hfree;
      apply andb_true_iff in Hfree as [Hfree _];
      now destruct (marker_here _).
  - cbn [first_line_marker_free] in Hfree.
    apply andb_true_iff in Hfree as [_ Hfree].
    unfold single_line in Hpre. simpl in Hpre.
    apply andb_true_iff in Hpre as [Hc Hpre].
    apply negb_true_iff in Hc. rewrite Hc in Hfree. now apply IH.
Qed.

(** X17. The leading repetition stops at a line break: when no marker
    begins on the first line of the text, [getYouTubeId] returns [null],
    even if a well-formed link follows on a later line. *)
Theorem getYouTubeId_first_line_only (url : string) :
  first_line_marker_free url = true →
  getYouTubeId url = None.
Proof.
  intros Hfree. unfold getYouTubeId.
  destruct (exec regExp url) as [m|] eqn:E; [|reflexivity].
  apply exec_regExp_Some_inv in E as (pre & mk & tail & -> & Hpre & Hhere & _).
  rewrite (first_line_marker_free_prefix pre (mk +:+ tail) Hfree Hpre) in Hhere.
  discriminate Hhere.
Qed.

Lemma getYouTubeId_first_line_only_witness :
  getYouTubeId
    ("Recording:" +:+ String (ascii_of_nat 10) "https://youtu.be/dQw4w9WgXcQ")
  = None.
Proof.
  apply (getYouTubeId_first_line_only
           ("Recording:" +:+ String (ascii_of_nat 10) "https://youtu.be/dQw4w9WgXcQ")).
  vm_compute. reflexivity.
Defined.

(** ** [getThumbnailUrl] *)

Lemma append_inj_r (a b c : string) : a +:+ c = b +:+ c → a = b.
Proof.
  revert b. induction a as [|x a IH]; intros [|y b] H.
  - reflexivity.
  - exfalso. apply (f_equal String.length) in H.
    rewrite !length_append in H. simpl in H. lia.
  - exfalso. apply (f_equal String.length) in H.
    rewrite !length_append in H. simpl in H. lia.
  - rewrite !append_cons in H. injection H as -> H. f_equal. now apply IH.
Qed.

Lemma getThumbnailUrl_inj (id1 id2 : string) :
  getThumbnailUrl id1 = getThumbnailUrl id2 → id1 = id2.
Proof.
  unfold getThumbnailUrl. intros H.
  apply String.app_inj in H. now apply append_inj_r in H.
Qed.

Lemma getThumbnailUrl_not_placeholder (videoId : string) :
  getThumbnailUrl videoId ≠ placeholder.
Proof. unfold getThumbnailUrl, placeholder. intros H. discriminate H. Qed.

(** X4. The thumbnail address tells the identifier: different
    identifiers have different addresses, no identifier has the
    placeholder address, and two rows whose records have the same
    thumbnail address had the same result of extraction. *)
Theorem thumbnailUrl_tells_identifier :
  (∀ id1 id2, getThumbnailUrl id1 = getThumbnailUrl id2 → id1 = id2)
  ∧ (∀ videoId, getThumbnailUrl videoId ≠ placeholder)
  ∧ (∀ (row1 row2 : Row) (i1 i2 : nat) (url1 url2 : string) (d1 d2 : Devotional),
       row1 !! "Video URL" = Some url1 →
       row2 !! "Video URL" = Some url2 →
       normalize row1 i1 = Normal d1 →
       normalize row2 i2 = Normal d2 →
       thumbnailUrl d1 = thumbnailUrl d2 →
       getYouTubeId url1 = getYouTubeId url2).
Proof.
  split; [exact getThumbnailUrl_inj|]. split; [exact getThumbnailUrl_not_placeholder|].
  intros row1 row2 i1 i2 url1 url2 d1 d2 H1 H2 Hd1 Hd2 Heq.
  assert (Hthumb : ∀ row i url d,
            row !! "Video URL" = Some url → normalize row i = Normal d →
            thumbnailUrl d = match getYouTubeId url with
                             | Some videoId => getThumbnailUrl videoId
                             | None => placeholder
                             end).
  { intros row i url d Hrow Hd. unfold normalize, videoId_of in Hd.
    rewrite Hrow in Hd. destruct (getYouTubeId url) as [v|] eqn:E.
    - apply getYouTubeId_length in E. destruct v; [discriminate E|].
      injection Hd as <-. reflexivity.
    - injection Hd as <-. reflexivity. }
  rewrite (Hthumb _ _ _ _ H1 Hd1), (Hthumb _ _ _ _ H2 Hd2) in Heq.
  destruct (getYouTubeId url1) as [v1|], (getYouTubeId url2) as [v2|].
  - f_equal. now apply getThumbnailUrl_inj.
  - now apply getThumbnailUrl_not_placeholder in Heq.
  - symmetry in Heq. now apply getThumbnailUrl_not_placeholder in Heq.
  - reflexivity.
Qed.

Lemma thumbnailUrl_tells_identifier_witness :
  getYouTubeId "https://youtu.be/dQw4w9WgXcQ"
  = getYouTubeId "https://www.youtube.com/watch?v=dQw4w9WgXcQ".
Proof.
  apply (proj2 (proj2 thumbnailUrl_tells_identifier)
           {[ "Video URL" := "https://youtu.be/dQw4w9WgXcQ" ]}
           {[ "Video URL" := "https://www.youtube.com/watch?v=dQw4w9WgXcQ" ]}
           0 1 "https://youtu.be/dQw4w9WgXcQ"
           "https://www.youtube.com/watch?v=dQw4w9WgXcQ"
           {| id := "sheet-0"; date := None; title := None; speaker := None;
              language := tl; scripture := None;
              videoUrl := Some "https://youtu.be/dQw4w9WgXcQ";
              thumbnailUrl := getThumbnailUrl "dQw4w9WgXcQ" |}
           {| id := "sheet-1"; date := None; title := None; speaker := None;
              language := tl; scripture := None;
              videoUrl := Some "https://www.youtube.com/watch?v=dQw4w9WgXcQ";
              thumbnailUrl := getThumbnailUrl "dQw4w9WgXcQ" |});
    vm_compute; reflexivity.
Defined.

(** ** The hook on every path *)

Lemma Array_map_Throw {A B : Type} (f : A → nat → completion B) (x : A) :
  ∀ l index,
    x ∈ l → (∀ j, ∃ e, f x j = Throw e) → ∃ e, Array_map f index l = Throw e.
Proof.
  induction l as [|y l IH]; intros index Hin Hx; [now apply elem_of_nil in Hin|].
  cbn. apply elem_of_cons in Hin as [<-|Hin].
  - destruct (Hx index) as [e ->]. now exists e.
  - destruct (f y index) as [b|e]; cbn; [|now exists e].
    destruct (IH (S index) Hin Hx) as [e ->]. now exists e.
Qed.

(** X5. However the network and the parser behave, the hook ends in one of
    four states, all with the loading flag false: the fallback dataset
    without error (no address configured); the fallback dataset with the
    error "Failed to load devotionals"; the empty collection with the error
    "Failed to parse data"; or, without error, the records of the parsed
    rows, which are in the order of [sortedData] when every date has a time
    value. *)
Theorem useDevotionals_outcomes
    (MOCK_DEVOTIONALS : list Devotional) (engine_parse : string → option Z)
    (fetch : string → FetchResult) (Papa_parse : string → PapaResult)
    (url : string) :
  let st := useDevotionals MOCK_DEVOTIONALS engine_parse fetch Papa_parse url in
  loading st = false
  ∧ ((url = "" ∧ devotionals st = MOCK_DEVOTIONALS ∧ error st = None)
     ∨ (url ≠ "" ∧ devotionals st = MOCK_DEVOTIONALS
        ∧ error st = Some "Failed to load devotionals")
     ∨ (url ≠ "" ∧ devotionals st = []
        ∧ error st = Some "Failed to parse data"
        ∧ ∃ csvText, fetch url = Response true csvText
                     ∧ Papa_parse csvText = ParseError)
     ∨ (url ≠ "" ∧ error st = None
        ∧ ∃ csvText data parsed,
            fetch url = Response true csvText
            ∧ Papa_parse csvText = Complete data
            ∧ parsedData data = Normal parsed
            ∧ (Forall (λ d, is_Some (JSDate.getTime engine_parse (date d)))
                 parsed →
               devotionals st = sortedData engine_parse parsed))).
Proof.
  unfold useDevotionals. cbn [truthy].
  destruct (String.eqb_spec url "") as [->|Hne]; cbn [negb].
  { split; [reflexivity|]. left. auto. }
  destruct (fetch url) as [|[] csvText] eqn:Hfetch; cbn [negb].
  - split; [reflexivity|]. right; left. auto.
  - destruct (Papa_parse csvText) as [data|] eqn:Hpapa.
    + unfold complete. destruct (parsedData data) as [parsed|e] eqn:Hparsed; cbn.
      * split; [reflexivity|]. right; right; right.
        split; [exact Hne|]. split; [reflexivity|].
        exists csvText, data, parsed. auto.
      * split; [reflexivity|]. right; left. auto.
    + split; [reflexivity|]. right; right; left.
      split; [exact Hne|]. split; [reflexivity|]. split; [reflexivity|].
      exists csvText. auto.
  - split; [reflexivity|]. right; left. auto.
Qed.

Lemma useDevotionals_outcomes_witness :
  let st := useDevotionals [] (λ _, None) (λ _, Response true "csv")
              (λ _, Complete three_rows) "https://example.org/feed.csv" in
  ∃ parsed, parsedData three_rows = Normal parsed
            ∧ devotionals st = sortedData (λ _, None) parsed.
Proof.
  intros st.
  destruct (useDevotionals_outcomes [] (λ _, None) (λ _, Response true "csv")
              (λ _, Complete three_rows) "https://example.org/feed.csv")
    as [_ [(Hurl & _)|[(_ & _ & Herr)|[(_ & _ & Herr & _)|H]]]].
  - discriminate Hurl.
  - discriminate Herr.
  - discriminate Herr.
  - destruct H as (_ & _ & csvText & data & parsed & _ & Hpapa & Hparsed & Hsort).
    injection Hpapa as <-. exists parsed. split; [exact Hparsed|].
    apply Hsort. vm_compute in Hparsed. injection Hparsed as <-.
    repeat constructor; eexists; reflexivity.
Defined.

(** X6. One surviving row without a video cell discards the whole sheet:
    the [map] callback throws on it, and the load ends in the [catch]
    handler with the fallback dataset and the error set, whatever the other
    rows are. *)
Theorem useDevotionals_row_without_video
    (MOCK_DEVOTIONALS : list Devotional) (engine_parse : string → option Z)
    (fetch : string → FetchResult) (Papa_parse : string → PapaResult)
    (url csvText : string) (data : list Row) (row : Row) :
  truthy (Some url) = true →
  fetch url = Response true csvText →
  Papa_parse csvText = Complete data →
  row ∈ data →
  row_valid row = true →
  row !! "Video URL" = None →
  parsedData data = Throw TypeError
  ∧ useDevotionals MOCK_DEVOTIONALS engine_parse fetch Papa_parse url
    = {| devotionals := MOCK_DEVOTIONALS; loading := false;
         error := Some "Failed to load devotionals" |}.
Proof.
  intros Hurl Hfetch Hpapa Hin Hvalid Hrow.
  assert (Hthrow : ∃ e, parsedData data = Throw e).
  { unfold parsedData. apply (Array_map_Throw normalize row).
    - now apply elem_of_filter_valid.
    - intros j. exists TypeError. unfold normalize, videoId_of.
      now rewrite Hrow. }
  assert (Htype : ∀ l index e, Array_map normalize index l = Throw e → e = TypeError).
  { induction l as [|r l IH]; intros index e H; cbn in H; [discriminate H|].
    destruct (normalize r index) as [d|e'] eqn:Hn; cbn in H.
    - destruct (Array_map normalize (S index) l) as [ds|e''] eqn:Hl; cbn in H;
        [discriminate H|]. injection H as <-. now apply (IH (S index)).
    - injection H as <-. unfold normalize, videoId_of in Hn.
      destruct (r !! "Video URL"); cbn in Hn; [discriminate Hn|].
      now injection Hn. }
  destruct Hthrow as [e He].
  assert (e = TypeError) as -> by (unfold parsedData in He; now apply Htype in He).
  split; [exact He|].
  unfold useDevotionals. rewrite Hurl, Hfetch, Hpapa. cbn [negb].
  unfold complete. now rewrite He.
Qed.

Lemma useDevotionals_row_without_video_witness :
  let good : Row := {[ "Date" := "2024-05-01"; "Title" := "Faith";
                       "Video URL" := "https://youtu.be/dQw4w9WgXcQ" ]} in
  let short : Row := {[ "Date" := "2024-05-02"; "Title" := "Hope" ]} in
  parsedData [good; short] = Throw TypeError
  ∧ useDevotionals [] (λ _, None) (λ _, Response true "csv")
      (λ _, Complete [good; short]) "https://example.org/feed.csv"
    = {| devotionals := []; loading := false;
         error := Some "Failed to load devotionals" |}.
Proof.
  intros good short.
  apply (useDevotionals_row_without_video [] (λ _, None)
           (λ _, Response true "csv") (λ _, Complete [good; short])
           "https://example.org/feed.csv" "csv" [good; short] short);
    try reflexivity.
  apply list_elem_of_further, list_elem_of_here.
Defined.

(** ** Record identifiers *)

Lemma Number_toString_inj (a b : nat) :
  Number_toString a = Number_toString b → a = b.
Proof.
  unfold Number_toString. intros H.
  apply (f_equal NilEmpty.uint_of_string) in H.
  rewrite !NilEmpty.usu in H. injection H as H.
  now apply DecimalNat.Unsigned.to_uint_inj.
Qed.

Lemma sheet_id_inj (a b : nat) :
  "sheet-" +:+ Number_toString a = "sheet-" +:+ Number_toString b → a = b.
Proof. intros H. apply String.app_inj in H. now apply Number_toString_inj. Qed.

Lemma Array_map_normalize_ids : ∀ (l : list Row) (index : nat) (out : list Devotional),
  Array_map normalize index l = Normal out →
  id <$> out
  = (λ k, "sheet-" +:+ Number_toString k) <$> seq index (length l).
Proof.
  induction l as [|row l IH]; intros index out H; cbn in H.
  - now injection H as <-.
  - destruct (normalize row index) as [d|e] eqn:Hd; cbn in H; [|discriminate H].
    destruct (Array_map normalize (S index) l) as [ds|e] eqn:Hl; cbn in H;
      [|discriminate H].
    injection H as <-. cbn. f_equal.
    + now apply normalize_fields in Hd as [Hid _].
    + now apply IH.
Qed.

(** X7. The identifiers number the surviving rows, not the rows of the
    sheet: the k-th row that passes validation gets "sheet-k", counting
    from 0, so that after a load the identifiers are those of 0 to n-1 for
    n surviving rows, in some order, and no two records share one. *)
Theorem loaded_ids_unique
    (engine_parse : string → option Z) (data : list Row)
    (st st' : HookState) :
  complete engine_parse data st = Normal st' →
  (∃ parsed,
     parsedData data = Normal parsed
     ∧ id <$> parsed
       = (λ k, "sheet-" +:+ Number_toString k)
           <$> seq 0 (length (List.filter row_valid data)))
  ∧ id <$> devotionals st'
    ≡ₚ (λ k, "sheet-" +:+ Number_toString k)
         <$> seq 0 (length (List.filter row_valid data))
  ∧ NoDup (id <$> devotionals st').
Proof.
  unfold complete. intros H.
  destruct (parsedData data) as [parsed|e] eqn:Hparsed; cbn in H; [|discriminate H].
  injection H as <-. cbn [devotionals setLoading setDevotionals].
  pose proof (Array_map_normalize_ids _ _ _ Hparsed) as Hids.
  assert (Hperm : id <$> sortedData engine_parse parsed
                  ≡ₚ (λ k, "sheet-" +:+ Number_toString k)
                       <$> seq 0 (length (List.filter row_valid data))).
  { rewrite <- Hids. apply fmap_Permutation. apply Array_sort_Permutation. }
  split; [now exists parsed|]. split; [exact Hperm|].
  rewrite Hperm. apply NoDup_fmap_2; [|apply NoDup_seq].
  intros a b. apply sheet_id_inj.
Qed.

Lemma loaded_ids_unique_witness :
  let data : list Row :=
    [ {[ "Date" := ""; "Title" := "Dropped"; "Video URL" := "" ]};
      {[ "Date" := "2024-05-01"; "Title" := "Faith"; "Video URL" := "" ]};
      {[ "Date" := "2024-05-20"; "Title" := "Hope"; "Video URL" := "" ]} ] in
  ∃ st', complete (λ _, None) data initial = Normal st'
         ∧ NoDup (id <$> devotionals st').
Proof.
  intros data. eexists. split; [vm_compute; reflexivity|].
  eapply (loaded_ids_unique (λ _, None) data initial).
  vm_compute. reflexivity.
Defined.

Example ids_count_surviving_rows :
  id <$> devotionals
    (useDevotionals [] (λ _, None) (λ _, Response true "")
       (λ _, Complete
          [ {[ "Date" := ""; "Title" := "Dropped"; "Video URL" := "" ]};
            {[ "Date" := "2024-05-01"; "Title" := "Faith"; "Video URL" := "" ]};
            {[ "Date" := "2024-05-20"; "Title" := "Hope"; "Video URL" := "" ]} ])
       "https://example.org/feed.csv")
  = ["sheet-1"; "sheet-0"].
Proof. vm_compute. reflexivity. Qed.

(** ** More on the sort *)

Section SortStability.
Context {A : Type} (comparefn : A → A → option Z) (key : A → Z).

(** Insertion passes only elements whose key is larger. *)
Lemma sort_insert_filter (t : Z) (x : A) (l : list A) :
  (∀ y, y ∈ l → comparefn x y = Some (key y - key x)%Z) →
  List.filter (λ d, bool_decide (key d = t)) (sort_insert comparefn x l)
  = List.filter (λ d, bool_decide (key d = t)) (x :: l).
Proof.
  induction l as [|y l IH]; intros Hcmp; [reflexivity|].
  cbn [sort_insert]. unfold SortCompare.
  rewrite (Hcmp y) by apply list_elem_of_here. cbn [from_option Datatypes.id].
  destruct (Z.leb_spec (key y - key x) 0) as [Hle|Hgt]; [reflexivity|].
  cbn [List.filter]. rewrite IH
    by (intros z Hz; apply Hcmp; now apply list_elem_of_further).
  cbn [List.filter].
  destruct (bool_decide (key x = t)) eqn:Ex; [|reflexivity].
  apply bool_decide_eq_true in Ex.
  rewrite (bool_decide_eq_false_2 (key y = t)) by lia. reflexivity.
Qed.

Lemma Array_sort_filter (t : Z) (l : list A) :
  (∀ x y, x ∈ l → y ∈ l → comparefn x y = Some (key y - key x)%Z) →
  List.filter (λ d, bool_decide (key d = t)) (Array_sort comparefn l)
  = List.filter (λ d, bool_decide (key d = t)) l.
Proof.
  induction l as [|x l IH]; intros Hcmp; [reflexivity|].
  cbn [Array_sort]. rewrite sort_insert_filter.
  - cbn [List.filter]. rewrite IH; [reflexivity|].
    intros y z Hy Hz. apply Hcmp; now apply list_elem_of_further.
  - intros y Hy. rewrite Array_sort_Permutation in Hy.
    apply Hcmp; [apply list_elem_of_here | now apply list_elem_of_further].
Qed.

(** A list already in descending order of the key is left as it is. *)
Lemma Array_sort_sorted_id (l : list A) :
  (∀ x y, x ∈ l → y ∈ l → comparefn x y = Some (key y - key x)%Z) →
  StronglySorted (λ a b, (key b ≤ key a)%Z) l →
  Array_sort comparefn l = l.
Proof.
  intros Hcmp Hs. induction Hs as [|x l Hs IH Hx]; [reflexivity|].
  cbn [Array_sort]. rewrite IH
    by (intros y z Hy Hz; apply Hcmp; now apply list_elem_of_further).
  destruct l as [|y l]; [reflexivity|]. cbn [sort_insert]. unfold SortCompare.
  rewrite (Hcmp x y) by (repeat constructor). cbn [from_option Datatypes.id].
  apply Forall_cons in Hx as [Hxy _].
  destruct (Z.leb_spec (key y - key x) 0); [reflexivity | lia].
Qed.
End SortStability.

Lemma by_date_key (engine_parse : string → option Z) (parsed : list Devotional) :
  Forall (λ d, is_Some (JSDate.getTime engine_parse (date d))) parsed →
  ∀ x y, x ∈ parsed → y ∈ parsed →
    by_date engine_parse x y
    = Some (default 0 (JSDate.getTime engine_parse (date y))
            - default 0 (JSDate.getTime engine_parse (date x)))%Z.
Proof.
  intros Hall x y Hx Hy. rewrite Forall_forall in Hall.
  destruct (Hall x Hx) as [tx Htx], (Hall y Hy) as [ty Hty].
  unfold by_date. now rewrite Htx, Hty.
Qed.

(** X8. The sort is stable: when every date has a time value, the records
    of any one day keep the order they had before the sort, that is the
    order of their rows in the sheet. *)
Theorem sortedData_stable
    (engine_parse : string → option Z) (parsed : list Devotional) (t : Z) :
  Forall (λ d, is_Some (JSDate.getTime engine_parse (date d))) parsed →
  List.filter
    (λ d, bool_decide (JSDate.getTime engine_parse (date d) = Some t))
    (sortedData engine_parse parsed)
  = List.filter
      (λ d, bool_decide (JSDate.getTime engine_parse (date d) = Some t))
      parsed.
Proof.
  intros Hall.
  set (key := λ d : Devotional,
         default 0%Z (JSDate.getTime engine_parse (date d))).
  assert (Hext : ∀ l, Forall (λ d, is_Some (JSDate.getTime engine_parse (date d))) l →
            List.filter
              (λ d, bool_decide (JSDate.getTime engine_parse (date d) = Some t)) l
            = List.filter (λ d, bool_decide (key d = t)) l).
  { intros l Hl. apply List.filter_ext_in. intros d Hd.
    rewrite Forall_forall in Hl. apply list_elem_of_In in Hd.
    destruct (Hl d Hd) as [td Htd]. unfold key. rewrite Htd.
    cbn [from_option Datatypes.id].
    destruct (decide (td = t)) as [->|Hne].
    - rewrite !bool_decide_eq_true_2; reflexivity.
    - rewrite !bool_decide_eq_false_2; [reflexivity | exact Hne | congruence]. }
  rewrite !Hext; [|exact Hall|].
  - apply Array_sort_filter. now apply by_date_key.
  - unfold sortedData. now rewrite Array_sort_Permutation.
Qed.

Lemma sortedData_stable_witness :
  let a := {| id := "sheet-0"; date := Some "2024-05-20"; title := Some "Morning";
              speaker := None; language := tl; scripture := None;
              videoUrl := None; thumbnailUrl := placeholder |} in
  let b := {| id := "sheet-1"; date := Some "2024-05-21"; title := Some "Next";
              speaker := None; language := tl; scripture := None;
              videoUrl := None; thumbnailUrl := placeholder |} in
  let c := {| id := "sheet-2"; date := Some "2024-05-20"; title := Some "Evening";
              speaker := None; language := tl; scripture := None;
              videoUrl := None; thumbnailUrl := placeholder |} in
  List.filter
    (λ d, bool_decide (JSDate.getTime (λ _, None) (date d) = Some 1716163200000%Z))
    (sortedData (λ _, None) [a; b; c])
  = List.filter
      (λ d, bool_decide (JSDate.getTime (λ _, None) (date d) = Some 1716163200000%Z))
      [a; b; c].
Proof.
  intros a b c.
  apply (sortedData_stable (λ _, None) [a; b; c] 1716163200000%Z).
  repeat constructor; eexists; reflexivity.
Defined.

(** X9. Records that are already newest first are left in place, and
    sorting a second time changes nothing. *)
Theorem sortedData_idempotent
    (engine_parse : string → option Z) (parsed : list Devotional) :
  Forall (λ d, is_Some (JSDate.getTime engine_parse (date d))) parsed →
  (StronglySorted (newer_or_same engine_parse) parsed →
   sortedData engine_parse parsed = parsed)
  ∧ sortedData engine_parse (sortedData engine_parse parsed)
    = sortedData engine_parse parsed.
Proof.
  intros Hall.
  set (key := λ d : Devotional,
         default 0%Z (JSDate.getTime engine_parse (date d))).
  split.
  - intros Hs. unfold sortedData.
    apply (Array_sort_sorted_id _ key); [now apply by_date_key|].
    eapply (StronglySorted_refine (λ _, True)); [|now apply Forall_true|exact Hs].
    intros a b _ _ (ta & tb & Ha & Hb & Hle). unfold key. now rewrite Ha, Hb.
  - unfold sortedData.
    assert (Hall' : Forall (λ d, is_Some (JSDate.getTime engine_parse (date d)))
                      (Array_sort (by_date engine_parse) parsed))
      by now rewrite Array_sort_Permutation.
    apply (Array_sort_sorted_id _ key); [now apply by_date_key|].
    apply Array_sort_sorted. now apply by_date_key.
Qed.

Lemma sortedData_idempotent_witness :
  sortedData (λ _, None)
    (sortedData (λ _, None)
       [ {| id := "sheet-0"; date := Some "2024-05-01"; title := Some "First";
            speaker := None; language := tl; scripture := None;
            videoUrl := None; thumbnailUrl := placeholder |};
         {| id := "sheet-1"; date := Some "2024-05-20"; title := Some "Second";
            speaker := None; language := tl; scripture := None;
            videoUrl := None; thumbnailUrl := placeholder |} ])
  = sortedData (λ _, None)
      [ {| id := "sheet-0"; date := Some "2024-05-01"; title := Some "First";
           speaker := None; language := tl; scripture := None;
           videoUrl := None; thumbnailUrl := placeholder |};
        {| id := "sheet-1"; date := Some "2024-05-20"; title := Some "Second";
           speaker := None; language := tl; scripture := None;
           videoUrl := None; thumbnailUrl := placeholder |} ].
Proof.
  apply (sortedData_idempotent (λ _, None)).
  repeat constructor; eexists; reflexivity.
Defined.

(** ** More on the list view *)

Lemma matches_empty_search (filter : Filter) (d : Devotional) :
  is_Some (title d) →
  matches filter "" d
  = Normal match filter with
           | all => true
           | only l => bool_decide (language d = l)
           end.
Proof.
  intros [t Ht]. unfold matches. rewrite Ht. cbn.
  rewrite includes_empty. cbn. now rewrite andb_true_r.
Qed.

Lemma filter_true {A : Type} (l : list A) : List.filter (λ _, true) l = l.
Proof. induction l as [|x l IH]; cbn; [reflexivity | now rewrite IH]. Qed.

Lemma parsed_have_title (data : list Row) (parsed : list Devotional) :
  parsedData data = Normal parsed →
  Forall (λ d, is_Some (title d)) parsed.
Proof.
  intros H. apply Forall_forall. intros d Hd.
  destruct (Forall2_elem_of_r _ _ _ d (Array_map_Normal _ _ _ _ H) Hd)
    as [row [Hrow [j Hnorm]]].
  apply elem_of_filter_valid in Hrow as [_ Hvalid].
  apply normalize_fields in Hnorm as (_ & _ & Htitle & _).
  unfold row_valid in Hvalid. apply andb_true_iff in Hvalid as [_ Ht].
  apply truthy_Some in Ht as [t [Ht _]]. exists t. congruence.
Qed.

(** X10. With no language selected and an empty search term, the state in
    which the page opens, the filter returns the whole collection as long
    as every record has a title: the speaker is not looked at.  The records
    of a completed load all have one, so the page opens on all of them even
    when some have no speaker. *)
Theorem initial_view_shows_all :
  (∀ ds : list Devotional,
     Forall (λ d, is_Some (title d)) ds →
     filteredDevotionals ds all "" = Normal ds)
  ∧ (∀ (engine_parse : string → option Z) (data : list Row) (st st' : HookState),
       complete engine_parse data st = Normal st' →
       filteredDevotionals (devotionals st') all "" = Normal (devotionals st')).
Proof.
  assert (Hall : ∀ ds : list Devotional,
            Forall (λ d, is_Some (title d)) ds →
            filteredDevotionals ds all "" = Normal ds).
  { intros ds Hds. unfold filteredDevotionals.
    rewrite (Array_filter_Normal _ (λ _, true)).
    - now rewrite filter_true.
    - eapply Forall_impl; [exact Hds|]. intros d Hd.
      now rewrite matches_empty_search. }
  split; [exact Hall|].
  intros engine_parse data st st' H. unfold complete in H.
  destruct (parsedData data) as [parsed|e] eqn:Hparsed; cbn in H; [|discriminate H].
  injection H as <-. cbn [devotionals setLoading setDevotionals].
  apply Hall. unfold sortedData. rewrite Array_sort_Permutation.
  now apply (parsed_have_title data).
Qed.

Lemma initial_view_shows_all_witness :
  let d := {| id := "sheet-0"; date := Some "2024-05-01"; title := Some "Faith";
              speaker := None; language := tl; scripture := None;
              videoUrl := Some ""; thumbnailUrl := placeholder |} in
  filteredDevotionals [d] all "" = Normal [d].
Proof.
  intros d. apply (proj1 initial_view_shows_all [d]).
  repeat constructor. eexists; reflexivity.
Defined.

Lemma includes_inner (s a x b : string) :
  includes s (a +:+ x +:+ b) = true → includes s x = true.
Proof.
  rewrite !includes_spec. intros [pre [post ->]].
  exists (pre +:+ a), (b +:+ post). now rewrite !append_assoc.
Qed.

Lemma filter_sublist_impl {A : Type} (p q : A → bool) (l : list A) :
  (∀ x, x ∈ l → p x = true → q x = true) →
  List.filter p l `sublist_of` List.filter q l.
Proof.
  induction l as [|x l IH]; intros H; cbn; [constructor|].
  assert (IH' : List.filter p l `sublist_of` List.filter q l)
    by (apply IH; intros y Hy; apply H; now apply list_elem_of_further).
  destruct (p x) eqn:Hp.
  - rewrite (H x (list_elem_of_here _ _) Hp). now apply sublist_skip.
  - destruct (q x); [now apply sublist_cons | exact IH'].
Qed.

(** X11. A term that contains another never adds results: for records
    that have a title and a speaker, when the lower-case form of [term]
    occurs in the lower-case form of [term'], the output for [term'] is a
    sublist of the output for [term], under the same language selection. *)
Theorem search_narrows
    (ds : list Devotional) (filter : Filter)
    (term term' before after : string) :
  Forall (λ d, is_Some (title d) ∧ is_Some (speaker d)) ds →
  toLowerCase term' = before +:+ toLowerCase term +:+ after →
  ∃ wide narrow,
    filteredDevotionals ds filter term = Normal wide
    ∧ filteredDevotionals ds filter term' = Normal narrow
    ∧ narrow `sublist_of` wide.
Proof.
  intros Htyped Hterm.
  assert (Hrun : ∀ t, filteredDevotionals ds filter t
                      = Normal (List.filter (matches_typed filter t) ds)).
  { intros t. apply Array_filter_Normal.
    eapply Forall_impl; [exact Htyped|].
    intros d [Ht Hs]. now apply matches_Normal. }
  eexists _, _. split; [apply Hrun|]. split; [apply Hrun|].
  apply filter_sublist_impl. intros d _. unfold matches_typed.
  rewrite !andb_true_iff, !orb_true_iff, Hterm.
  intros [Hl [H|H]]; (split; [exact Hl|]);
    [left | right]; now apply includes_inner in H.
Qed.

Lemma search_narrows_witness :
  ∃ wide narrow,
    filteredDevotionals [faith; pananampalataya] all "A" = Normal wide
    ∧ filteredDevotionals [faith; pananampalataya] all "Faith" = Normal narrow
    ∧ narrow `sublist_of` wide.
Proof.
  apply (search_narrows [faith; pananampalataya] all "A" "Faith" "f" "ith").
  - repeat constructor; eexists; reflexivity.
  - reflexivity.
Defined.

Lemma filter_split {A : Type} (p q : A → bool) (l : list A) :
  List.filter p l
  ≡ₚ List.filter (λ x, q x && p x) l ++ List.filter (λ x, negb (q x) && p x) l.
Proof.
  induction l as [|x l IH]; cbn; [reflexivity|].
  destruct (q x), (p x); cbn; rewrite ?IH; try reflexivity.
  apply Permutation_middle.
Qed.

(** X12. The two language tabs split the unfiltered list: for records
    that have a title and a speaker and any search term, the output under
    "all" is the output under "en" followed by the output under "tl", up to
    order, and no record is in both. *)
Theorem language_tabs_partition
    (ds : list Devotional) (searchTerm : string) :
  Forall (λ d, is_Some (title d) ∧ is_Some (speaker d)) ds →
  ∃ out_all out_en out_tl,
    filteredDevotionals ds all searchTerm = Normal out_all
    ∧ filteredDevotionals ds (only en) searchTerm = Normal out_en
    ∧ filteredDevotionals ds (only tl) searchTerm = Normal out_tl
    ∧ out_all ≡ₚ out_en ++ out_tl
    ∧ (∀ d, d ∈ out_en → d ∉ out_tl).
Proof.
  intros Htyped.
  assert (Hrun : ∀ f, filteredDevotionals ds f searchTerm
                      = Normal (List.filter (matches_typed f searchTerm) ds)).
  { intros f. apply Array_filter_Normal.
    eapply Forall_impl; [exact Htyped|].
    intros d [Ht Hs]. now apply matches_Normal. }
  eexists _, _, _. split; [apply Hrun|]. split; [apply Hrun|].
  split; [apply Hrun|]. split.
  - rewrite (filter_split (matches_typed all searchTerm)
               (λ d, bool_decide (language d = en)) ds).
    apply Permutation_app; apply Permutation_refl'; apply List.filter_ext;
      intros d; unfold matches_typed; cbn [andb]; [reflexivity|].
    f_equal. destruct (language d); reflexivity.
  - intros d Hen Htl.
    apply list_elem_of_In, List.filter_In in Hen as [_ Hen].
    apply list_elem_of_In, List.filter_In in Htl as [_ Htl].
    unfold matches_typed in Hen, Htl.
    apply andb_true_iff in Hen as [Hen _]. apply andb_true_iff in Htl as [Htl _].
    apply bool_decide_eq_true in Hen, Htl. congruence.
Qed.

Lemma language_tabs_partition_witness :
  ∃ out_all out_en out_tl,
    filteredDevotionals [faith; pananampalataya] all "" = Normal out_all
    ∧ filteredDevotionals [faith; pananampalataya] (only en) "" = Normal out_en
    ∧ filteredDevotionals [faith; pananampalataya] (only tl) "" = Normal out_tl
    ∧ out_all ≡ₚ out_en ++ out_tl
    ∧ (∀ d, d ∈ out_en → d ∉ out_tl).
Proof.
  apply (language_tabs_partition [faith; pananampalataya] "").
  repeat constructor; eexists; reflexivity.
Defined.

Lemma lower_char_idempotent (c : ascii) : lower_char (lower_char c) = lower_char c.
Proof. destruct c as [[] [] [] [] [] [] [] []]; reflexivity. Qed.

Lemma toLowerCase_idempotent (s : string) :
  toLowerCase (toLowerCase s) = toLowerCase s.
Proof.
  induction s as [|c s IH]; cbn; [reflexivity|].
  now rewrite lower_char_idempotent, IH.
Qed.

Lemma Array_filter_ext {A : Type} (f g : A → completion bool) (l : list A) :
  (∀ x, f x = g x) → Array_filter f l = Array_filter g l.
Proof.
  intros H. induction l as [|x l IH]; cbn; [reflexivity|]. now rewrite H, IH.
Qed.

(** X13. The search ignores the case of the term: two terms with the same
    lower-case form, such as a term and its lower-case form, give the same
    result on every collection and under every language selection, the
    thrown error included. *)
Theorem search_ignores_case_of_term
    (ds : list Devotional) (filter : Filter) (term term' : string) :
  toLowerCase term = toLowerCase term' →
  filteredDevotionals ds filter term = filteredDevotionals ds filter term'
  ∧ filteredDevotionals ds filter term
    = filteredDevotionals ds filter (toLowerCase term).
Proof.
  intros H.
  assert (Hext : ∀ t t', toLowerCase t = toLowerCase t' →
            filteredDevotionals ds filter t = filteredDevotionals ds filter t').
  { intros t t' Ht. unfold filteredDevotionals. apply Array_filter_ext.
    intros d. unfold matches. now rewrite Ht. }
  split; [now apply Hext|].
  apply Hext. now rewrite toLowerCase_idempotent.
Qed.

Lemma search_ignores_case_of_term_witness :
  filteredDevotionals [faith; pananampalataya] all "FAITH"
  = filteredDevotionals [faith; pananampalataya] all "faith".
Proof.
  apply (search_ignores_case_of_term [faith; pananampalataya] all "FAITH" "faith").
  reflexivity.
Defined.

(** ** The page after a load *)

(** X14. Once the hook has settled the page never shows the loading panel,
    and it shows one of two things above the optional notice that nothing
    was found: the grid of the filtered records when no error is set, the
    error panel otherwise.  After a parser failure it shows the error
    panel together with that notice, whatever the language selection and
    the search term are. *)
Theorem DevotionalsPage_after_load
    (MOCK_DEVOTIONALS : list Devotional) (engine_parse : string → option Z)
    (fetch : string → FetchResult) (Papa_parse : string → PapaResult)
    (url : string) :
  let st := useDevotionals MOCK_DEVOTIONALS engine_parse fetch Papa_parse url in
  (∀ filtered,
     DevotionalsPage st filtered
     = match error st with
       | None => Grid filtered
       | Some message => ErrorPanel message
       end :: (if length filtered =? 0 then [NothingFound] else []))
  ∧ (∀ csvText filter searchTerm,
       truthy (Some url) = true →
       fetch url = Response true csvText →
       Papa_parse csvText = ParseError →
       ∃ filtered,
         filteredDevotionals (devotionals st) filter searchTerm = Normal filtered
         ∧ DevotionalsPage st filtered
           = [ErrorPanel "Failed to parse data"; NothingFound]).
Proof.
  cbn zeta. split.
  - intros filtered. unfold useDevotionals. cbn [truthy].
    destruct (String.eqb url ""); cbn [negb]; [reflexivity|].
    destruct (fetch url) as [|[] csvText]; cbn [negb]; try reflexivity.
    destruct (Papa_parse csvText) as [data|]; [|reflexivity].
    unfold complete. destruct (parsedData data); reflexivity.
  - intros csvText filter searchTerm Hurl Hfetch Hpapa.
    unfold useDevotionals. rewrite Hurl, Hfetch, Hpapa. cbn [negb].
    exists []. split; reflexivity.
Qed.

Lemma DevotionalsPage_after_load_witness :
  ∃ filtered,
    filteredDevotionals
      (devotionals (useDevotionals [faith] (λ _, None) (λ _, Response true "x")
                      (λ _, ParseError) "https://example.org/feed.csv"))
      (only en) "faith" = Normal filtered
    ∧ DevotionalsPage
        (useDevotionals [faith] (λ _, None) (λ _, Response true "x")
           (λ _, ParseError) "https://example.org/feed.csv") filtered
      = [ErrorPanel "Failed to parse data"; NothingFound].
Proof.
  apply (proj2 (DevotionalsPage_after_load [faith] (λ _, None)
                  (λ _, Response true "x") (λ _, ParseError)
                  "https://example.org/feed.csv") "x" (only en) "faith");
    reflexivity.
Defined.

(** ** The loader of the guide and the hook *)

Section SortRelated.
Context {A B : Type} (R : A → B → Prop).
Context (cmpA : A → A → option Z) (cmpB : B → B → option Z).
Hypothesis cmp_related :
  ∀ x x' y y', R x x' → R y y' → SortCompare cmpA x y = SortCompare cmpB x' y'.

Lemma sort_insert_Forall2 x x' l l' :
  R x x' → Forall2 R l l' →
  Forall2 R (sort_insert cmpA x l) (sort_insert cmpB x' l').
Proof.
  intros Hx Hl. induction Hl as [|y y' l l' Hy Hl IH]; cbn.
  - now repeat constructor.
  - rewrite (cmp_related x x' y y' Hx Hy).
    destruct (_ <=? _)%Z; repeat constructor; assumption.
Qed.

Lemma Array_sort_Forall2 l l' :
  Forall2 R l l' → Forall2 R (Array_sort cmpA l) (Array_sort cmpB l').
Proof.
  intros Hl. induction Hl as [|x x' l l' Hx Hl IH]; cbn; [constructor|].
  now apply sort_insert_Forall2.
Qed.
End SortRelated.

Lemma filter_all_valid (data : list Row) :
  Forall well_formed data → List.filter row_valid data = data.
Proof.
  induction 1 as [|row data [Hvalid _] _ IH]; cbn; [reflexivity|].
  now rewrite Hvalid, IH.
Qed.

Lemma normalize_agree (row : Row) (index : nat) :
  well_formed row →
  ∃ g d, Guide.normalize row index = Normal g
         ∧ normalize row index = Normal d
         ∧ agree g d.
Proof.
  intros (_ & [url Hurl] & s & Hs & Hlang).
  unfold Guide.normalize, normalize, videoId_of. rewrite Hurl, Hs. cbn.
  eexists _, _. split; [reflexivity|]. split; [reflexivity|].
  unfold agree. cbn [Guide.id Guide.date Guide.title Guide.speaker
    Guide.scripture Guide.videoUrl Guide.language Guide.thumbnailUrl
    id date title speaker scripture videoUrl language thumbnailUrl].
  repeat split.
  - destruct Hlang as [H|H]; rewrite H; reflexivity.
  - destruct (negb _); [now left | right; now split].
Qed.

Lemma Array_map_agree : ∀ (data : list Row) (index : nat),
  Forall well_formed data →
  ∃ g a, Array_map Guide.normalize index data = Normal g
         ∧ Array_map normalize index data = Normal a
         ∧ Forall2 agree g a.
Proof.
  induction data as [|row data IH]; intros index Hwf; cbn.
  - exists [], []. repeat split; constructor.
  - apply Forall_cons in Hwf as [Hrow Hdata].
    destruct (normalize_agree row index Hrow) as (g & d & -> & -> & Hgd).
    destruct (IH (S index) Hdata) as (gs & ds & -> & -> & Hrest).
    exists (g :: gs), (d :: ds). repeat split; try reflexivity.
    now constructor.
Qed.

(** X15. On a sheet filled in as the guide asks, the loader listed in the
    guide and the hook of the application load the same data: both map
    every row, and the two sorted arrays agree entry by entry, with the
    language as "tl" or "en" and the empty thumbnail of the guide where
    the application puts the placeholder. *)
Theorem guide_and_hook_agree
    (engine_parse : string → option Z) (data : list Row) (st : HookState) :
  Forall well_formed data →
  ∃ entries st',
    Guide.complete engine_parse data = Normal entries
    ∧ complete engine_parse data st = Normal st'
    ∧ Forall2 agree entries (devotionals st')
    ∧ length entries = length data.
Proof.
  intros Hwf.
  destruct (Array_map_agree data 0 Hwf) as (g & a & Hg & Ha & Hga).
  unfold Guide.complete, Guide.parsedData, complete, parsedData.
  rewrite (filter_all_valid data Hwf), Hg, Ha. cbn.
  eexists _, _. split; [reflexivity|]. split; [reflexivity|].
  cbn [devotionals]. split.
  - unfold Guide.sortedData, sortedData. apply Array_sort_Forall2; [|exact Hga].
    intros x x' y y' Hx Hy. unfold SortCompare, Guide.by_date, by_date.
    destruct Hx as (_ & -> & _), Hy as (_ & -> & _). reflexivity.
  - unfold Guide.sortedData. rewrite Array_sort_Permutation.
    symmetry. exact (Forall2_length _ _ _ (Array_map_Normal _ _ _ _ Hg)).
Qed.

Lemma guide_and_hook_agree_witness :
  let data : list Row :=
    [ {[ "Date" := "2024-05-01"; "Title" := "Faith"; "Speaker" := "Juan";
         "Language" := "EN"; "Scripture" := "Mark 4:35-41";
         "Video URL" := "https://youtu.be/dQw4w9WgXcQ" ]};
      {[ "Date" := "2024-05-20"; "Title" := "Pag-asa"; "Speaker" := "Maria";
         "Language" := "tl"; "Scripture" := "Roma 5:5";
         "Video URL" := "to follow" ]} ] in
  ∃ entries st',
    Guide.complete (λ _, None) data = Normal entries
    ∧ complete (λ _, None) data initial = Normal st'
    ∧ Forall2 agree entries (devotionals st')
    ∧ length entries = length data.
Proof.
  intros data.
  apply (guide_and_hook_agree (λ _, None) data initial).
  repeat constructor; try (eexists; reflexivity);
    eexists; (split; [reflexivity|]); vm_compute; auto.
Defined.

(** X16. Where the two loaders part.  In the guide a row without a
    Language cell makes the [map] callback throw, and with it the whole
    [complete] callback of any sheet that holds the row, so that nothing is
    loaded; the hook of the application gives such a row, when it has a
    video cell, the Tagalog value.  The guide drops no row: when it loads,
    there is one entry for every row of the sheet. *)
Theorem guide_needs_language
    (engine_parse : string → option Z) (data : list Row) (row : Row) :
  row ∈ data →
  row !! "Language" = None →
  (∀ index, Guide.normalize row index = Throw TypeError)
  ∧ Guide.complete engine_parse data = Throw TypeError
  ∧ (∀ index url, row !! "Video URL" = Some url →
       ∃ d, normalize row index = Normal d ∧ language d = tl)
  ∧ (∀ sheet entries, Guide.complete engine_parse sheet = Normal entries →
       length entries = length sheet).
Proof.
  intros Hin Hlang.
  assert (Hrow : ∀ index, Guide.normalize row index = Throw TypeError).
  { intros index. unfold Guide.normalize, videoId_of.
    destruct (row !! "Video URL"); cbn; [now rewrite Hlang | reflexivity]. }
  assert (Htype : ∀ l index e,
            Array_map Guide.normalize index l = Throw e → e = TypeError).
  { induction l as [|r l IH]; intros index e H; cbn in H; [discriminate H|].
    destruct (Guide.normalize r index) as [g|e'] eqn:Hn; cbn in H.
    - destruct (Array_map Guide.normalize (S index) l) as [gs|e''] eqn:Hl;
        cbn in H; [discriminate H|]. injection H as <-. now apply (IH (S index)).
    - injection H as <-. unfold Guide.normalize, videoId_of in Hn.
      destruct (r !! "Video URL"); cbn in Hn; [|now injection Hn].
      destruct (r !! "Language"); cbn in Hn; [discriminate Hn | now injection Hn]. }
  split; [exact Hrow|]. split; [|split].
  - destruct (Array_map_Throw Guide.normalize row data 0 Hin) as [e He].
    { intros j. exists TypeError. apply Hrow. }
    unfold Guide.complete, Guide.parsedData. rewrite He. cbn.
    f_equal. now apply Htype in He.
  - intros index url Hurl. unfold normalize, videoId_of. rewrite Hurl, Hlang.
    eexists. split; reflexivity.
  - intros sheet entries H. unfold Guide.complete, Guide.parsedData in H.
    destruct (Array_map Guide.normalize 0 sheet) as [g|e] eqn:Hg; cbn in H;
      [|discriminate H].
    injection H as <-. unfold Guide.sortedData. rewrite Array_sort_Permutation.
    symmetry. exact (Forall2_length _ _ _ (Array_map_Normal _ _ _ _ Hg)).
Qed.

Lemma guide_needs_language_witness :
  let row : Row := {[ "Date" := "2024-05-01"; "Title" := "Faith";
                      "Video URL" := "https://youtu.be/dQw4w9WgXcQ" ]} in
  Guide.complete (λ _, None) [row] = Throw TypeError
  ∧ ∃ d, normalize row 0 = Normal d ∧ language d = tl.
Proof.
  intros row.
  destruct (guide_needs_language (λ _, None) [row] row) as (_ & H1 & H2 & _).
  - apply list_elem_of_here.
  - reflexivity.
  - split; [exact H1|]. apply (H2 0 "https://youtu.be/dQw4w9WgXcQ"). reflexivity.
Defined.
